(** * pycount: identifier occurrences of a Python syntax tree

    A shallow embedding of [scripts/pycount.py].  The script walks the tree
    that [ast.parse] returns with a subclass of [ast.NodeVisitor] and hands one
    row [name, line, column, file] to a csv writer for every identifier it
    meets.  The rows written, in order, are the observable behaviour. *)

From Stdlib Require Import List String Ascii ZArith Lia.
Import ListNotations.
Open Scope string_scope.
Open Scope list_scope.
Open Scope Z_scope.

(** ** The node model *)

(** Induction on a node reaches the nodes held in lists and optional
    slots through these predicates. *)
Scheme All for list.
Scheme All for option.

(** [lineno] and [col_offset] of a positioned node, Python integers. *)
Record position : Type := mk_position { lineno : Z; col_offset : Z }.

(** [Load()], [Store()], [Del()]: nodes without fields. *)
Inductive expr_context : Type := Load | Store | Del.

(** [ast.alias]: [name], [asname] and its own position. *)
Record alias : Type := mk_alias {
  alias_name : string;
  asname : option string;
  alias_pos : position
}.

(** [ast.keyword]: [arg] is [None] for a double-star argument. *)
Record keyword_of (N : Type) : Type := mk_keyword {
  kw_arg : option string;
  kw_value : N;
  kw_pos : position
}.
Arguments mk_keyword {N}.
Arguments kw_arg {N}.
Arguments kw_value {N}.
Arguments kw_pos {N}.
Scheme All for keyword_of.

(** [ast.arg]: a parameter of a function definition. *)
Record arg_of (N : Type) : Type := mk_arg {
  arg_arg : string;
  annotation : option N;
  arg_pos : position
}.
Arguments mk_arg {N}.
Arguments arg_arg {N}.
Arguments annotation {N}.
Arguments arg_pos {N}.
Scheme All for arg_of.

(** [ast.arguments], fields in the order of its [_fields]. *)
Record arguments_of (N : Type) : Type := mk_arguments {
  posonlyargs : list (arg_of N);
  args : list (arg_of N);
  vararg : option (arg_of N);
  kwonlyargs : list (arg_of N);
  kw_defaults : list (option N);
  kwarg : option (arg_of N);
  defaults : list (option N)
}.
Arguments mk_arguments {N}.
Arguments posonlyargs {N}.
Arguments args {N}.
Arguments vararg {N}.
Arguments kwonlyargs {N}.
Arguments kw_defaults {N}.
Arguments kwarg {N}.
Arguments defaults {N}.
Scheme All for arguments_of.

(** A field of a node of any other class, as [generic_visit] tells them
    apart: a node, a list (whose items are nodes, or [None] for anything
    else), or a value that is neither. *)
Inductive field_of (N : Type) : Type :=
| FNode (n : N)
| FList (items : list (option N))
| FValue.
Arguments FNode {N}.
Arguments FList {N}.
Arguments FValue {N}.
Scheme All for field_of.

(** The classes [Visitor] has a [visit_] method for, each with the fields of
    its [_fields] that hold nodes or names, and [Other] for every class
    without one. *)
Inductive node : Type :=
| Name (id : string) (ctx : expr_context) (pos : position)
| Call (func : node) (cargs : list node) (keywords : list (keyword_of node))
       (pos : position)
| Attribute (value : node) (attr : string) (ctx : expr_context)
            (pos : position)
| Import (names : list alias) (pos : position)
| ImportFrom (module : option string) (names : list alias) (level : Z)
             (pos : position)
| MatchAs (pattern : option node) (name : option string) (pos : position)
| FunctionDef (name : string) (fargs : arguments_of node) (body : list node)
              (decorator_list : list node) (returns : option node)
              (type_params : list node) (pos : position)
| AsyncFunctionDef (name : string) (fargs : arguments_of node)
                   (body : list node) (decorator_list : list node)
                   (returns : option node) (type_params : list node)
                   (pos : position)
| Global (gnames : list string) (pos : position)
| Nonlocal (gnames : list string) (pos : position)
| ClassDef (name : string) (bases : list node)
           (keywords : list (keyword_of node)) (body : list node)
           (decorator_list : list node) (type_params : list node)
           (pos : position)
| Other (kind : string) (fields : list (field_of node)).

Abbreviation keyword := (keyword_of node).
Abbreviation arg := (arg_of node).
Abbreviation arguments := (arguments_of node).
Abbreviation field := (field_of node).

(** ** The writer *)

(** One row given to [writer.writerow]: [name] is [None] when the Python
    value written is [None]. *)
Record row : Type := mk_row {
  row_name : option string;
  row_line : Z;
  row_column : Z;
  row_file : string
}.

(** The rows written so far, oldest first. *)
Definition writer : Type := list row.

(** A method of the visitor: it changes the writer and returns nothing. *)
Definition action : Type := writer -> writer.

Definition skip : action := fun w => w.
Definition seq (a b : action) : action := fun w => b (a w).
Notation "a ;; b" := (seq a b) (at level 61, right associativity).

(** [for x in l: f(x)] *)
Definition for_each {A : Type} (f : A -> action) (l : list A) : action :=
  fun w => fold_left (fun w x => f x w) l w.

(** [if x is not None: f(x)] *)
Definition if_some {A : Type} (f : A -> action) (o : option A) : action :=
  match o with
  | Some x => f x
  | None => skip
  end.

(** Python truth of an optional string: [None] and [""] are false. *)
Definition truthy (s : option string) : bool :=
  match s with
  | Some (String _ _) => true
  | _ => false
  end.

(** [s.split(sep)] for a one-character separator. *)
Fixpoint split_from (sep : ascii) (cur : string) (s : string) : list string :=
  match s with
  | EmptyString => [cur]
  | String c s' =>
      if Ascii.eqb c sep
      then cur :: split_from sep EmptyString s'
      else split_from sep (cur ++ String c EmptyString)%string s'
  end.

Definition split (sep : ascii) (s : string) : list string :=
  split_from sep EmptyString s.

Definition dot : ascii := "."%char.

(** ** The visitor *)

Section Visitor.

Variable fname : string.

(** [Visitor._write] *)
Definition _write (name : option string) (pos : position) : action :=
  fun w => w ++ [mk_row name (lineno pos) (col_offset pos + 1) fname].

(** The loop of [visit_ImportFrom] and [_visit_alias] over the parts of a
    dotted name. *)
Definition write_parts (s : string) (pos : position) : action :=
  for_each (fun part => if truthy (Some part) then _write (Some part) pos
                        else skip)
           (split dot s).

(** [Visitor._visit_keyword] *)
Definition _visit_keyword {N : Type} (k : keyword_of N) : action :=
  if truthy (kw_arg k) then _write (kw_arg k) (kw_pos k) else skip.

(** [Visitor._visit_alias] *)
Definition _visit_alias (a : alias) : action :=
  (if truthy (Some (alias_name a)) then write_parts (alias_name a) (alias_pos a)
   else skip) ;;
  (if truthy (asname a) then _write (asname a) (alias_pos a) else skip).

(** [Visitor._visit_arg]; its argument is [None] for an absent slot. *)
Definition _visit_arg {N : Type} (a : option (arg_of N)) : action :=
  match a with
  | None => skip
  | Some a => _write (Some (arg_arg a)) (arg_pos a)
  end.

Section Methods.

Variable N : Type.
Variable visit : N -> action.

(** [Visitor._visit_arguments] *)
Definition _visit_arguments (a : arguments_of N) : action :=
  for_each (fun x => _visit_arg (Some x)) (posonlyargs a) ;;
  for_each (fun x => _visit_arg (Some x)) (args a) ;;
  _visit_arg (vararg a) ;;
  for_each (if_some visit) (defaults a) ;;
  for_each (fun x => _visit_arg (Some x)) (kwonlyargs a) ;;
  for_each (if_some visit) (kw_defaults a) ;;
  _visit_arg (kwarg a).

(** [generic_visit] on an [ast.keyword]: fields [arg], [value]. *)
Definition generic_visit_keyword (k : keyword_of N) : action :=
  visit (kw_value k).

(** [generic_visit] on an [ast.arg]: fields [arg], [annotation],
    [type_comment]. *)
Definition generic_visit_arg (a : arg_of N) : action :=
  if_some visit (annotation a).

(** [generic_visit] on an [ast.arguments]. *)
Definition generic_visit_arguments (a : arguments_of N) : action :=
  for_each generic_visit_arg (posonlyargs a) ;;
  for_each generic_visit_arg (args a) ;;
  if_some generic_visit_arg (vararg a) ;;
  for_each generic_visit_arg (kwonlyargs a) ;;
  for_each (if_some visit) (kw_defaults a) ;;
  if_some generic_visit_arg (kwarg a) ;;
  for_each (if_some visit) (defaults a).

(** One round of the loop of [generic_visit] over the fields. *)
Definition generic_visit_field (f : field_of N) : action :=
  match f with
  | FNode n => visit n
  | FList items => for_each (if_some visit) items
  | FValue => skip
  end.

End Methods.

Arguments _visit_arguments {N}.
Arguments generic_visit_keyword {N}.
Arguments generic_visit_arg {N}.
Arguments generic_visit_arguments {N}.
Arguments generic_visit_field {N}.

(** [generic_visit] on an [ast.alias] (fields [name], [asname]) and on an
    [expr_context] (no field): nothing to visit. *)
Definition generic_visit_alias (a : alias) : action := skip.
Definition generic_visit_ctx (c : expr_context) : action := skip.

(** [Visitor.visit]: the method for the class of the node, [generic_visit]
    when there is none.  In every case the part after the writes is
    [generic_visit] on the fields of the class, in their order. *)
Fixpoint visit (n : node) : action :=
  match n with
  | Name id ctx pos =>
      _write (Some id) pos ;;
      generic_visit_ctx ctx
  | Call func cargs keywords pos =>
      for_each _visit_keyword keywords ;;
      (visit func ;;
       for_each visit cargs ;;
       for_each (generic_visit_keyword visit) keywords)
  | Attribute value attr ctx pos =>
      (visit value ;;
       generic_visit_ctx ctx) ;;
      _write (Some attr) pos
  | Import names pos =>
      for_each _visit_alias names ;;
      for_each generic_visit_alias names
  | ImportFrom module names level pos =>
      (if truthy module
       then match module with
            | Some m => write_parts m pos
            | None => skip
            end
       else skip) ;;
      for_each _visit_alias names ;;
      for_each generic_visit_alias names
  | MatchAs pattern name pos =>
      _write name pos ;;
      if_some visit pattern
  | FunctionDef name fargs body decorator_list returns type_params pos =>
      _write (Some name) pos ;;
      _visit_arguments visit fargs ;;
      (generic_visit_arguments visit fargs ;;
       for_each visit body ;;
       for_each visit decorator_list ;;
       if_some visit returns ;;
       for_each visit type_params)
  | AsyncFunctionDef name fargs body decorator_list returns type_params pos =>
      _write (Some name) pos ;;
      _visit_arguments visit fargs ;;
      (generic_visit_arguments visit fargs ;;
       for_each visit body ;;
       for_each visit decorator_list ;;
       if_some visit returns ;;
       for_each visit type_params)
  | Global gnames pos =>
      for_each (fun name => _write (Some name) pos) gnames
  | Nonlocal gnames pos =>
      for_each (fun name => _write (Some name) pos) gnames
  | ClassDef name bases keywords body decorator_list type_params pos =>
      _write (Some name) pos ;;
      for_each _visit_keyword keywords ;;
      (for_each visit bases ;;
       for_each (generic_visit_keyword visit) keywords ;;
       for_each visit body ;;
       for_each visit decorator_list ;;
       for_each visit type_params)
  | Other kind fields =>
      for_each (generic_visit_field visit) fields
  end.

End Visitor.

Arguments _visit_arguments fname {N}.
Arguments generic_visit_keyword {N}.
Arguments generic_visit_arg {N}.
Arguments generic_visit_arguments {N}.
Arguments generic_visit_field {N}.

(** ** The positions of a tree *)

(** The positions the nodes of a tree carry: those of the nodes themselves
    and of their [alias], [keyword] and [arg] entries.  Every call of
    [_write] takes its line and column from one of them. *)

Definition opt_positions {A : Type} (f : A -> list position) (o : option A)
  : list position :=
  match o with
  | Some x => f x
  | None => []
  end.

Section Positions.

Variable N : Type.
Variable positions : N -> list position.

Definition keyword_positions (k : keyword_of N) : list position :=
  kw_pos k :: positions (kw_value k).

Definition arg_positions (a : arg_of N) : list position :=
  arg_pos a :: opt_positions positions (annotation a).

Definition arguments_positions (a : arguments_of N) : list position :=
  flat_map arg_positions (posonlyargs a) ++
  flat_map arg_positions (args a) ++
  opt_positions arg_positions (vararg a) ++
  flat_map arg_positions (kwonlyargs a) ++
  flat_map (opt_positions positions) (kw_defaults a) ++
  opt_positions arg_positions (kwarg a) ++
  flat_map (opt_positions positions) (defaults a).

Definition field_positions (f : field_of N) : list position :=
  match f with
  | FNode n => positions n
  | FList items => flat_map (opt_positions positions) items
  | FValue => []
  end.

End Positions.

Arguments keyword_positions {N}.
Arguments arg_positions {N}.
Arguments arguments_positions {N}.
Arguments field_positions {N}.

Fixpoint positions (n : node) : list position :=
  match n with
  | Name _ _ pos => [pos]
  | Call func cargs keywords pos =>
      pos :: positions func ++ flat_map positions cargs ++
      flat_map (keyword_positions positions) keywords
  | Attribute value _ _ pos => pos :: positions value
  | Import names pos => pos :: map alias_pos names
  | ImportFrom _ names _ pos => pos :: map alias_pos names
  | MatchAs pattern _ pos => pos :: opt_positions positions pattern
  | FunctionDef _ fargs body decorator_list returns type_params pos
  | AsyncFunctionDef _ fargs body decorator_list returns type_params pos =>
      pos :: arguments_positions positions fargs ++
      flat_map positions body ++ flat_map positions decorator_list ++
      opt_positions positions returns ++ flat_map positions type_params
  | Global _ pos => [pos]
  | Nonlocal _ pos => [pos]
  | ClassDef _ bases keywords body decorator_list type_params pos =>
      pos :: flat_map positions bases ++
      flat_map (keyword_positions positions) keywords ++
      flat_map positions body ++ flat_map positions decorator_list ++
      flat_map positions type_params
  | Other _ fields => flat_map (field_positions positions) fields
  end.

(** What the parser guarantees of a position: lines count from 1, column
    offsets from 0. *)
Definition valid_position (p : position) : Prop :=
  1 <= lineno p /\ 0 <= col_offset p.

(** The three columns of a row that do not come from the visitor's file
    name: the occurrence. *)
Definition occurrence (r : row) : option string * Z * Z :=
  (row_name r, row_line r, row_column r).

(** The row [_write] makes of a name and a position. *)
Definition row_at (fname : string) (name : string) (pos : position) : row :=
  mk_row (Some name) (lineno pos) (col_offset pos + 1) fname.

(** The nodes [generic_visit] reaches through the fields of a node of
    another class, in order. *)
Definition field_children (f : field) : list node :=
  match f with
  | FNode n => [n]
  | FList items => flat_map (fun o => match o with Some n => [n] | None => [] end) items
  | FValue => []
  end.

(** The occurrences a walk of a tree adds, whatever the file. *)
Definition occurrences (n : node) : list (option string * Z * Z) :=
  map occurrence (visit EmptyString n []).

(** ** Some parsed units *)

(** Classes without a [visit_] method that the units below use. *)
Definition Module (body : list node) : node :=
  Other "Module" [FList (map Some body); FList []].
Definition Return (value : option node) : node :=
  Other "Return" [match value with Some v => FNode v | None => FValue end].
Definition Constant : node := Other "Constant" [FValue; FValue].
Definition Pass : node := Other "Pass" [].
Definition match_case (pattern : node) (guard : option node)
           (body : list node) : node :=
  Other "match_case"
        [FNode pattern;
         match guard with Some g => FNode g | None => FValue end;
         FList (map Some body)].
Definition Match (subject : node) (cases : list node) : node :=
  Other "Match" [FNode subject; FList (map Some cases)].

Definition at_ (line col : Z) : position := mk_position line col.

(** [def f(x, y=1):] / [    return obj.attr] *)
Definition unit_f : node :=
  Module
    [FunctionDef "f"
       (mk_arguments []
          [mk_arg "x" None (at_ 1 6); mk_arg "y" None (at_ 1 9)]
          None [] [] None [Some Constant])
       [Return (Some (Attribute (Name "obj" Load (at_ 2 11)) "attr" Load
                                (at_ 2 11)))]
       [] None [] (at_ 1 0)].

(** [def f(x=y): pass] *)
Definition unit_default : node :=
  Module
    [FunctionDef "f"
       (mk_arguments [] [mk_arg "x" None (at_ 1 6)] None [] [] None
          [Some (Name "y" Load (at_ 1 8))])
       [Pass] [] None [] (at_ 1 0)].

(** [match v:] / [    case _:] / [        pass] *)
Definition unit_wildcard : node :=
  Module
    [Match (Name "v" Load (at_ 1 6))
       [match_case (MatchAs None None (at_ 2 9)) None [Pass]]].

(** [import pkg.sub.mod] *)
Definition unit_import : node :=
  Module [Import [mk_alias "pkg.sub.mod" None (at_ 1 7)] (at_ 1 0)].

(** ** The rows of a node and of its children *)

(** The node of an optional slot, and the nodes of a list with absent
    items. *)
Definition opt_list {A : Type} (o : option A) : list A :=
  match o with
  | Some x => [x]
  | None => []
  end.

Definition somes {A : Type} (l : list (option A)) : list A :=
  flat_map opt_list l.

(** The nodes below an [ast.arguments], in the order of its [_fields]:
    the annotations of the parameters and the defaults. *)
Definition arguments_children (a : arguments) : list node :=
  flat_map (fun x : arg => opt_list (annotation x)) (posonlyargs a) ++
  flat_map (fun x : arg => opt_list (annotation x)) (args a) ++
  flat_map (fun x : arg => opt_list (annotation x)) (opt_list (vararg a)) ++
  flat_map (fun x : arg => opt_list (annotation x)) (kwonlyargs a) ++
  somes (kw_defaults a) ++
  flat_map (fun x : arg => opt_list (annotation x)) (opt_list (kwarg a)) ++
  somes (defaults a).

(** The nodes directly below a node, in the order of the fields that hold
    them ([ast.iter_child_nodes], without the entries that are not nodes of
    the model: contexts, aliases, and the [keyword], [arg] and [arguments]
    wrappers, whose own children are listed in their place). *)
Definition children (n : node) : list node :=
  match n with
  | Name _ _ _ => []
  | Call func cargs keywords _ => func :: cargs ++ map kw_value keywords
  | Attribute value _ _ _ => [value]
  | Import _ _ => []
  | ImportFrom _ _ _ _ => []
  | MatchAs pattern _ _ => opt_list pattern
  | FunctionDef _ fargs body decorator_list returns type_params _
  | AsyncFunctionDef _ fargs body decorator_list returns type_params _ =>
      arguments_children fargs ++ body ++ decorator_list ++
      opt_list returns ++ type_params
  | Global _ _ => []
  | Nonlocal _ _ => []
  | ClassDef _ bases keywords body decorator_list type_params _ =>
      bases ++ map kw_value keywords ++ body ++ decorator_list ++ type_params
  | Other _ fields => flat_map field_children fields
  end.

(** [m] is [n] or lies below it. *)
Inductive reaches : node -> node -> Prop :=
| reaches_here (n : node) : reaches n n
| reaches_below (n c m : node) :
    In c (children n) -> reaches c m -> reaches n m.

(** [sep.join(l)] *)
Fixpoint join (sep : string) (l : list string) : string :=
  match l with
  | [] => EmptyString
  | x :: l' =>
      match l' with
      | [] => x
      | _ :: _ => (x ++ sep ++ join sep l')%string
      end
  end.

(** The text of the name column as the csv writer renders it: nothing for
    [None]. *)
Definition name_text (r : row) : string :=
  match row_name r with
  | Some s => s
  | None => EmptyString
  end.

(** [c in s] *)
Fixpoint contains (c : ascii) (s : string) : bool :=
  match s with
  | EmptyString => false
  | String c' s' => Ascii.eqb c' c || contains c s'
  end.

(** The parts of a dotted name that are not empty. *)
Definition parts (s : string) : list string :=
  filter (fun part => truthy (Some part)) (split dot s).

Section Rows.

Variable fname : string.

(** The rows of the walks of a list of nodes, one after the other. *)
Definition walk (l : list node) : list row :=
  flat_map (fun c => visit fname c []) l.

Definition part_rows (s : string) (pos : position) : list row :=
  map (fun part => row_at fname part pos) (parts s).

Definition alias_rows (a : alias) : list row :=
  part_rows (alias_name a) (alias_pos a) ++
  (if truthy (asname a)
   then [mk_row (asname a) (lineno (alias_pos a))
                (col_offset (alias_pos a) + 1) fname]
   else []).

Definition keyword_rows (keywords : list keyword) : list row :=
  map (fun k : keyword =>
         mk_row (kw_arg k) (lineno (kw_pos k)) (col_offset (kw_pos k) + 1)
                fname)
      (filter (fun k : keyword => truthy (kw_arg k)) keywords).

Definition param_rows (l : list arg) : list row :=
  map (fun x : arg => row_at fname (arg_arg x) (arg_pos x)) l.

(** The rows of the parameters of a function definition; the defaults
    are not among them. *)
Definition params (a : arguments) : list arg :=
  posonlyargs a ++ args a ++ opt_list (vararg a) ++ kwonlyargs a ++
  opt_list (kwarg a).

(** The rows of the pass of [_visit_arguments]: parameters, with the walks
    of the defaults between them. *)
Definition arguments_rows (a : arguments) : list row :=
  param_rows (posonlyargs a) ++
  param_rows (args a) ++
  param_rows (opt_list (vararg a)) ++
  walk (somes (defaults a)) ++
  param_rows (kwonlyargs a) ++
  walk (somes (kw_defaults a)) ++
  param_rows (opt_list (kwarg a)).

(** The rows a node gives of its own names, whatever lies below it. *)
Definition own_rows (n : node) : list row :=
  match n with
  | Name id _ pos => [row_at fname id pos]
  | Call _ _ keywords _ => keyword_rows keywords
  | Attribute _ attr _ pos => [row_at fname attr pos]
  | Import names _ => flat_map alias_rows names
  | ImportFrom module names _ pos =>
      match module with
      | Some m => part_rows m pos
      | None => []
      end ++ flat_map alias_rows names
  | MatchAs _ name pos =>
      [mk_row name (lineno pos) (col_offset pos + 1) fname]
  | FunctionDef name fargs _ _ _ _ pos
  | AsyncFunctionDef name fargs _ _ _ _ pos =>
      row_at fname name pos :: param_rows (params fargs)
  | Global gnames pos => map (fun name => row_at fname name pos) gnames
  | Nonlocal gnames pos => map (fun name => row_at fname name pos) gnames
  | ClassDef name _ keywords _ _ _ pos =>
      row_at fname name pos :: keyword_rows keywords
  | Other _ _ => []
  end.

(** What a node writes before the walks of its children, and after. *)
Definition rows_before (n : node) : list row :=
  match n with
  | Attribute _ _ _ _ => []
  | FunctionDef name fargs _ _ _ _ pos
  | AsyncFunctionDef name fargs _ _ _ _ pos =>
      row_at fname name pos :: arguments_rows fargs
  | _ => own_rows n
  end.

Definition rows_after (n : node) : list row :=
  match n with
  | Attribute _ attr _ pos => [row_at fname attr pos]
  | _ => []
  end.

End Rows.

(** ** The driver *)

(** What [process_file] comes to for a file: a tree, walked to its end; a
    [SyntaxError] of [ast.parse]; an exception of another kind out of
    opening, reading or parsing the file, which [process_file] does not
    catch; or a tree whose walk an exception cuts short (the recursion
    limit of the interpreter, on a deep tree) after [written] rows. *)
Inductive parsed : Type :=
| Tree (root : node)
| SyntaxErr
| Fails
| Interrupted (root : node) (written : nat).

(** One path of [root.rglob("*.py")]. *)
Record entry : Type := mk_entry {
  entry_path : string;
  entry_is_file : bool;
  entry_parsed : parsed
}.

(** The lines the script itself prints to [sys.stderr].  What the library
    or the interpreter adds there (a warning of the parser, the traceback of
    an exception) is no part of the model. *)
Inductive message : Type :=
| Usage (prog : string)
| SyntaxErrorIn (fname : string)
| Processed (fname : string).

Definition render (m : message) : string :=
  match m with
  | Usage prog => ("usage: " ++ prog ++ " <path> [out.csv]")%string
  | SyntaxErrorIn fname => ("Syntax error in " ++ fname ++ ", ignoring")%string
  | Processed fname => ("Processed " ++ fname)%string
  end.

(** The csv writer and the lines printed. *)
Definition streams : Type := (writer * list message)%type.

(** [process_file]; the flag is [false] when an exception leaves it. *)
Definition process_file (fname : string) (p : parsed) (st : streams)
  : streams * bool :=
  match p with
  | Fails => (st, false)
  | SyntaxErr => ((fst st, snd st ++ [SyntaxErrorIn fname]), true)
  | Tree root => ((visit fname root (fst st), snd st), true)
  | Interrupted root written =>
      ((fst st ++ firstn written (visit fname root []), snd st), false)
  end.

(** The loop of [main] over the paths found; the flag tells whether it ran
    to its end. *)
Fixpoint process_all (es : list entry) (st : streams) : streams * bool :=
  match es with
  | [] => (st, true)
  | e :: es' =>
      if entry_is_file e
      then let (st', returned) :=
             process_file (entry_path e) (entry_parsed e) st in
           if returned
           then process_all es'
                  (fst st', snd st' ++ [Processed (entry_path e)])
           else (st', false)
      else process_all es' st
  end.

Inductive exit : Type :=
| Returned
| Exit1
| Raised.

(** What a run of [main] leaves: whether the header row was written, the
    rows written after it, the output file opened ([None] when the rows go
    to [sys.stdout] or no output was opened), the lines the script printed
    to [sys.stderr], and how the run ended. *)
Record outcome : Type := mk_outcome {
  header_written : bool;
  rows_written : writer;
  destination : option string;
  diagnostics : list message;
  ended : exit
}.

(** [main], for [sys.argv = prog :: rest], the paths [rglob] finds below a
    root, and [opens out], which tells whether [Path(out).open("w")]
    succeeds.  When it does not, the exception leaves [main] before the
    [try]: nothing is written and no path is looked at.  An exception that
    leaves [process_file] leaves [main] too, after the [finally] clause. *)
Definition main (rglob : string -> list entry) (opens : string -> bool)
           (prog : string) (rest : list string) : outcome :=
  let run (root : string) (out : option string) :=
    let '((w, err), finished) := process_all (rglob root) ([], []) in
    mk_outcome true w out err (if finished then Returned else Raised) in
  match rest with
  | [root] => run root None
  | [root; out] =>
      if opens out
      then run root (Some out)
      else mk_outcome false [] None [] Raised
  | _ => mk_outcome false [] None [Usage prog] Exit1
  end.

(** What one path of the listing adds to the csv rows and to the lines
    printed when [main] gets through it; whether [main] stops at it, and
    the rows it has added by then. *)
Definition file_rows (e : entry) : list row :=
  if entry_is_file e
  then match entry_parsed e with
       | Tree root => visit (entry_path e) root []
       | _ => []
       end
  else [].

Definition file_messages (e : entry) : list message :=
  if entry_is_file e
  then match entry_parsed e with
       | Tree _ => [Processed (entry_path e)]
       | SyntaxErr => [SyntaxErrorIn (entry_path e); Processed (entry_path e)]
       | _ => []
       end
  else [].

Definition fails (e : entry) : bool :=
  entry_is_file e &&
  match entry_parsed e with
  | Fails => true
  | Interrupted _ _ => true
  | _ => false
  end.

Definition partial_rows (e : entry) : list row :=
  match entry_parsed e with
  | Interrupted root written => firstn written (visit (entry_path e) root [])
  | _ => []
  end.

(** Whether the output named on the command line, if one is, can be
    opened. *)
Definition output_opens (opens : string -> bool) (out : option string)
  : bool :=
  match out with
  | Some o => opens o
  | None => true
  end.

(** A path that [main] passes over without a row: not a regular file, or
    a file with a syntax error. *)
Definition passed_over (e : entry) : bool :=
  negb (entry_is_file e) ||
  match entry_parsed e with
  | SyntaxErr => true
  | _ => false
  end.

(** Two listings: one with a file that has a syntax error and a directory
    named like a source file, one with a file whose walk stops after two
    rows. *)
Definition found : list entry :=
  [mk_entry "pkg/a.py" true (Tree unit_import);
   mk_entry "pkg/b.py" true SyntaxErr;
   mk_entry "pkg/c.py" false Fails;
   mk_entry "pkg/d.py" true (Tree unit_f)].

Definition found_too_deep : list entry :=
  [mk_entry "pkg/a.py" true (Tree unit_import);
   mk_entry "pkg/y.py" true (Interrupted unit_f 2);
   mk_entry "pkg/d.py" true (Tree unit_f)].

(** * Properties *)

(** ** Loops and sequences *)

Lemma for_each_nil {A : Type} (f : A -> action) (w : writer) :
  for_each f [] w = w.
Proof. reflexivity. Qed.

Lemma for_each_cons {A : Type} (f : A -> action) (x : A) (l : list A)
      (w : writer) :
  for_each f (x :: l) w = for_each f l (f x w).
Proof. reflexivity. Qed.

Lemma for_each_app {A : Type} (f : A -> action) (l l' : list A) (w : writer) :
  for_each f (l ++ l') w = for_each f l' (for_each f l w).
Proof. unfold for_each. apply fold_left_app. Qed.

Lemma all_Forall {A : Type} (P : A -> Prop) (l : list A) :
  list_all A P l -> Forall P l.
Proof. induction 1; constructor; assumption. Qed.

Lemma Forall_mp {A : Type} (P Q : A -> Prop) (l : list A) :
  Forall (fun x => P x -> Q x) l -> Forall P l -> Forall Q l.
Proof.
  induction 1 as [|x l Hx _ IH]; intros HP; constructor;
    inversion HP; subst; auto.
Qed.

(** ** One induction for every property of the walk

    A relation between two runs of the visitor, possibly under two file
    names, that holds of [skip], is kept by sequencing and holds of two
    writes of the same name at the same position, relates the two walks of
    any tree. *)

Section Related.

Variables f1 f2 : string.
Variable Ppos : position -> Prop.
Variable R : action -> action -> Prop.

Hypothesis R_skip : R skip skip.
Hypothesis R_seq :
  forall a a' b b', R a b -> R a' b' -> R (a ;; a') (b ;; b').
Hypothesis R_write :
  forall name pos, Ppos pos -> R (_write f1 name pos) (_write f2 name pos).

Lemma R_for_each {A : Type} (f g : A -> action) (l : list A) :
  Forall (fun x => R (f x) (g x)) l -> R (for_each f l) (for_each g l).
Proof.
  induction 1 as [|x l Hx _ IH].
  - exact R_skip.
  - change (R (f x ;; for_each f l) (g x ;; for_each g l)).
    apply R_seq; assumption.
Qed.

Lemma R_if_some {A : Type} (f g : A -> action) (o : option A) :
  (forall x, o = Some x -> R (f x) (g x)) -> R (if_some f o) (if_some g o).
Proof.
  destruct o as [x|]; intros H; simpl.
  - apply H; reflexivity.
  - exact R_skip.
Qed.

Lemma R_write_parts (s : string) (pos : position) :
  Ppos pos -> R (write_parts f1 s pos) (write_parts f2 s pos).
Proof.
  intros Hp. unfold write_parts. apply R_for_each.
  apply Forall_forall. intros part _.
  destruct (truthy (Some part)); auto.
Qed.

Lemma R_visit_keyword {N : Type} (k : keyword_of N) :
  Ppos (kw_pos k) -> R (_visit_keyword f1 k) (_visit_keyword f2 k).
Proof.
  intros Hp. unfold _visit_keyword. destruct (truthy (kw_arg k)); auto.
Qed.

Lemma R_visit_alias (a : alias) :
  Ppos (alias_pos a) -> R (_visit_alias f1 a) (_visit_alias f2 a).
Proof.
  intros Hp. unfold _visit_alias. apply R_seq.
  - destruct (truthy (Some (alias_name a))); auto using R_write_parts.
  - destruct (truthy (asname a)); auto.
Qed.

Lemma R_visit_aliases (names : list alias) :
  Forall Ppos (map alias_pos names) ->
  R (for_each (_visit_alias f1) names) (for_each (_visit_alias f2) names).
Proof.
  intros H. rewrite Forall_map in H. apply R_for_each.
  revert H. apply Forall_impl. intros a. apply R_visit_alias.
Qed.

Lemma R_generic_aliases (names : list alias) :
  R (for_each generic_visit_alias names) (for_each generic_visit_alias names).
Proof.
  apply R_for_each. apply Forall_forall. intros a _. exact R_skip.
Qed.

Lemma R_visit_arg {N : Type} (a : option (arg_of N)) :
  (forall x, a = Some x -> Ppos (arg_pos x)) ->
  R (_visit_arg f1 a) (_visit_arg f2 a).
Proof. destruct a as [x|]; simpl; auto. Qed.

Lemma R_names (gnames : list string) (pos : position) :
  Ppos pos ->
  R (for_each (fun name => _write f1 (Some name) pos) gnames)
    (for_each (fun name => _write f2 (Some name) pos) gnames).
Proof.
  intros Hp. apply R_for_each. apply Forall_forall. auto.
Qed.

(** One step through a sequence, only where the goal shows one. *)
Ltac R_steps :=
  repeat match goal with
         | |- R (_ ;; _) (_ ;; _) => apply R_seq
         end.

(** The methods that take the walk as an argument, for any walk the
    relation holds of wherever the positions below a node are good. *)

Section RelatedMethods.

Variable N : Set.
Variables v1 v2 : N -> action.
Variable pos : N -> list position.

Let S (x : N) : Prop := Forall Ppos (pos x) -> R (v1 x) (v2 x).

Lemma R_opt_visit (o : option N) :
  option_all N S o -> Forall Ppos (opt_positions pos o) ->
  R (if_some v1 o) (if_some v2 o).
Proof.
  intros [x Hx|] H; simpl in *.
  - apply Hx, H.
  - exact R_skip.
Qed.

Lemma R_visits (l : list N) :
  list_all N S l -> Forall Ppos (flat_map pos l) ->
  R (for_each v1 l) (for_each v2 l).
Proof.
  intros Hall H. apply R_for_each.
  apply Forall_flat_map in H. revert H. apply Forall_mp.
  apply all_Forall. exact Hall.
Qed.

Lemma R_opt_visits (l : list (option N)) :
  list_all (option N) (option_all N S) l ->
  Forall Ppos (flat_map (opt_positions pos) l) ->
  R (for_each (if_some v1) l) (for_each (if_some v2) l).
Proof.
  intros Hall H. apply R_for_each.
  apply Forall_flat_map in H. revert H. apply Forall_mp.
  induction Hall as [|o Ho l _ IH]; constructor; auto.
  intros Hp. apply R_opt_visit; assumption.
Qed.

Lemma R_visit_keywords (l : list (keyword_of N)) :
  Forall Ppos (flat_map (keyword_positions pos) l) ->
  R (for_each (_visit_keyword f1) l) (for_each (_visit_keyword f2) l).
Proof.
  intros H. apply R_for_each.
  apply Forall_flat_map in H. revert H. apply Forall_impl.
  intros k Hk. apply R_visit_keyword.
  apply (Forall_inv Hk).
Qed.

Lemma R_generic_keywords (l : list (keyword_of N)) :
  list_all (keyword_of N) (keyword_of_all N S) l ->
  Forall Ppos (flat_map (keyword_positions pos) l) ->
  R (for_each (generic_visit_keyword v1) l)
    (for_each (generic_visit_keyword v2) l).
Proof.
  intros Hall H. apply R_for_each.
  apply Forall_flat_map in H. revert H. apply Forall_mp.
  induction Hall as [|k Hk l _ IH]; constructor; auto.
  destruct Hk as [a v Hv p]. intros Hp.
  apply Hv. apply (Forall_inv_tail Hp).
Qed.

Lemma R_visit_params (l : list (arg_of N)) :
  Forall Ppos (flat_map (arg_positions pos) l) ->
  R (for_each (fun x => _visit_arg f1 (Some x)) l)
    (for_each (fun x => _visit_arg f2 (Some x)) l).
Proof.
  intros H. apply R_for_each.
  apply Forall_flat_map in H. revert H. apply Forall_impl.
  intros a Ha. apply R_visit_arg. intros x [= <-].
  apply (Forall_inv Ha).
Qed.

Lemma R_visit_param (o : option (arg_of N)) :
  Forall Ppos (opt_positions (arg_positions pos) o) ->
  R (_visit_arg f1 o) (_visit_arg f2 o).
Proof.
  intros H. apply R_visit_arg. intros x ->. apply (Forall_inv H).
Qed.

Lemma R_generic_arg (a : arg_of N) :
  arg_of_all N S a -> Forall Ppos (arg_positions pos a) ->
  R (generic_visit_arg v1 a) (generic_visit_arg v2 a).
Proof.
  intros [s o Ho p] H. unfold generic_visit_arg; simpl.
  apply R_opt_visit; [assumption|]. apply (Forall_inv_tail H).
Qed.

Lemma R_generic_args (l : list (arg_of N)) :
  list_all (arg_of N) (arg_of_all N S) l ->
  Forall Ppos (flat_map (arg_positions pos) l) ->
  R (for_each (generic_visit_arg v1) l) (for_each (generic_visit_arg v2) l).
Proof.
  intros Hall H. apply R_for_each.
  apply Forall_flat_map in H. revert H. apply Forall_mp.
  induction Hall as [|a Ha l _ IH]; constructor; auto.
  intros Hp. apply R_generic_arg; assumption.
Qed.

Lemma R_generic_opt_arg (o : option (arg_of N)) :
  option_all (arg_of N) (arg_of_all N S) o ->
  Forall Ppos (opt_positions (arg_positions pos) o) ->
  R (if_some (generic_visit_arg v1) o) (if_some (generic_visit_arg v2) o).
Proof.
  intros [a Ha|] H; simpl in *.
  - apply R_generic_arg; assumption.
  - exact R_skip.
Qed.

Lemma R_visit_arguments (a : arguments_of N) :
  Forall Ppos (arguments_positions pos a) ->
  arguments_of_all N S a ->
  R (_visit_arguments f1 v1 a) (_visit_arguments f2 v2 a).
Proof.
  intros H Hall. revert H.
  destruct Hall as [po Hpo ar Har va Hva ko Hko kd Hkd kw Hkw de Hde].
  unfold arguments_positions, _visit_arguments.
  cbn [posonlyargs args vararg kwonlyargs kw_defaults kwarg defaults].
  repeat rewrite Forall_app.
  intros (H1 & H2 & H3 & H4 & H5 & H6 & H7).
  R_steps;
    auto using R_visit_params, R_visit_param, R_opt_visits.
Qed.

Lemma R_generic_arguments (a : arguments_of N) :
  Forall Ppos (arguments_positions pos a) ->
  arguments_of_all N S a ->
  R (generic_visit_arguments v1 a) (generic_visit_arguments v2 a).
Proof.
  intros H Hall. revert H.
  destruct Hall as [po Hpo ar Har va Hva ko Hko kd Hkd kw Hkw de Hde].
  unfold arguments_positions, generic_visit_arguments.
  cbn [posonlyargs args vararg kwonlyargs kw_defaults kwarg defaults].
  repeat rewrite Forall_app.
  intros (H1 & H2 & H3 & H4 & H5 & H6 & H7).
  R_steps;
    auto using R_generic_args, R_generic_opt_arg, R_opt_visits.
Qed.

Lemma R_generic_fields (l : list (field_of N)) :
  list_all (field_of N) (field_of_all N S) l ->
  Forall Ppos (flat_map (field_positions pos) l) ->
  R (for_each (generic_visit_field v1) l)
    (for_each (generic_visit_field v2) l).
Proof.
  intros Hall H. apply R_for_each.
  apply Forall_flat_map in H. revert H. apply Forall_mp.
  induction Hall as [|f Hf l _ IH]; constructor; auto.
  destruct Hf as [n Hn|items Hitems|]; simpl; intros Hp.
  - apply Hn, Hp.
  - apply R_opt_visits; assumption.
  - exact R_skip.
Qed.

End RelatedMethods.

Lemma R_visit (n : node) :
  Forall Ppos (positions n) -> R (visit f1 n) (visit f2 n).
Proof.
  induction n; intros HP; cbn [positions] in HP;
    repeat rewrite ?Forall_cons_iff, ?Forall_app in HP;
    cbn [visit].
  all: repeat match goal with H : _ /\ _ |- _ => destruct H end.
  all: R_steps.
  all: try match goal with
           | |- R (if truthy ?m then _ else _) _ => destruct m as [[|]|]; simpl
           end.
  all: eauto using R_skip, R_write, R_names, R_visit_aliases,
         R_generic_aliases, R_write_parts.
  all: first
         [ apply (R_visits _ _ _ positions)
         | apply (R_opt_visit _ _ _ positions)
         | apply (R_visit_keywords _ positions)
         | apply (R_generic_keywords _ _ _ positions)
         | apply (R_visit_arguments _ _ _ positions)
         | apply (R_generic_arguments _ _ _ positions)
         | apply (R_generic_fields _ _ _ positions) ];
    assumption.
Qed.

End Related.

(** ** The walk only appends *)

(** Whatever the writer holds already stays, and what a walk adds does not
    depend on it. *)
Lemma visit_appends (fname : string) (n : node) (w : writer) :
  visit fname n w = w ++ visit fname n [].
Proof.
  revert w.
  apply (R_visit fname fname (fun _ => True)
           (fun a _ => forall w, a w = w ++ a [])).
  - intros w. unfold skip. symmetry. apply app_nil_r.
  - intros a a' _ _ Ha Ha' w. unfold seq.
    rewrite (Ha' (a w)), (Ha' (a [])), (Ha w). symmetry. apply app_assoc.
  - intros name pos _ w. reflexivity.
  - apply Forall_forall. intros; exact I.
Qed.

Lemma for_each_visit (fname : string) (l : list node) (w : writer) :
  for_each (visit fname) l w = w ++ flat_map (fun c => visit fname c []) l.
Proof.
  revert w. induction l as [|c l IH]; intros w; cbn [flat_map].
  - symmetry. apply app_nil_r.
  - rewrite for_each_cons, IH, visit_appends. symmetry. apply app_assoc.
Qed.

Lemma for_each_opt_visit (fname : string) (l : list (option node))
      (w : writer) :
  for_each (if_some (visit fname)) l w =
  w ++ flat_map (fun c => visit fname c [])
         (flat_map (fun o => match o with Some n => [n] | None => [] end) l).
Proof.
  revert w. induction l as [|[c|] l IH]; intros w;
    rewrite ?for_each_cons, ?IH; cbn [flat_map if_some app].
  - symmetry. apply app_nil_r.
  - rewrite visit_appends. symmetry. apply app_assoc.
  - reflexivity.
Qed.

(** ** What the walk writes, construct by construct *)

(** C4.  For the unit [def f(x, y=1): return obj.attr] the rows written
    are those of [f], [x], [y], [obj] and [attr], in that order, each at the
    line and column of its node. *)
Theorem unit_f_rows (fname : string) :
  visit fname unit_f [] =
  [row_at fname "f" (at_ 1 0); row_at fname "x" (at_ 1 6);
   row_at fname "y" (at_ 1 9); row_at fname "obj" (at_ 2 11);
   row_at fname "attr" (at_ 2 11)]
  /\ map row_name (visit fname unit_f []) =
     [Some "f"; Some "x"; Some "y"; Some "obj"; Some "attr"].
Proof. split; reflexivity. Qed.

(** C5.  For a chain [a.b.c], whatever the expression [a] is, the walk
    first writes everything the walk of [a] writes, then [b], then [c]. *)
Theorem attribute_chain_order (fname : string) (a : node) (b c : string)
        (ctx1 ctx2 : expr_context) (pb pc : position) (w : writer) :
  visit fname (Attribute (Attribute a b ctx1 pb) c ctx2 pc) w =
  visit fname a w ++ [row_at fname b pb; row_at fname c pc].
Proof.
  cbn [visit]. unfold seq, generic_visit_ctx, skip, _write, row_at.
  rewrite <- app_assoc. reflexivity.
Qed.

(** C1.  The name [y] appears once in [def f(x=y): pass], as the default of
    [x], and the walk writes it twice: once from the loop of
    [_visit_arguments] over the defaults, once more when [generic_visit]
    reaches the same default through the [args] field. *)
Theorem default_written_twice (fname : string) :
  visit fname unit_default [] =
  [row_at fname "f" (at_ 1 0); row_at fname "x" (at_ 1 6);
   row_at fname "y" (at_ 1 8); row_at fname "y" (at_ 1 8)]
  /\ positions unit_default = [at_ 1 0; at_ 1 6; at_ 1 8].
Proof. split; reflexivity. Qed.

(** C3.  For [match v: case _: pass] the walk writes a row for the wildcard
    pattern whose name is [None], not a string. *)
Theorem wildcard_row_has_no_name (fname : string) :
  visit fname unit_wildcard [] =
  [row_at fname "v" (at_ 1 6);
   mk_row None 2 10 fname].
Proof. reflexivity. Qed.

(** C2, as the specification states it, fails: for [import pkg.sub.mod]
    the three rows do not carry the position of the [import] statement. *)
Lemma import_rows_not_at_statement :
  visit "m.py" (Import [mk_alias "pkg.sub.mod" None (at_ 1 7)] (at_ 1 0)) []
  <> [row_at "m.py" "pkg" (at_ 1 0); row_at "m.py" "sub" (at_ 1 0);
      row_at "m.py" "mod" (at_ 1 0)].
Proof. discriminate. Qed.

(** C2, amended.  For an import of the dotted path [pkg.sub.mod] the walk
    writes exactly three rows, [pkg], [sub], [mod] in that order, all three
    at one position: that of the [alias] entry of the path, not that of the
    statement. *)
Theorem import_dotted_rows (fname : string) (palias pstmt : position)
        (w : writer) :
  visit fname (Import [mk_alias "pkg.sub.mod" None palias] pstmt) w =
  w ++ [row_at fname "pkg" palias; row_at fname "sub" palias;
        row_at fname "mod" palias].
Proof.
  cbn. unfold _write, row_at, skip. repeat rewrite <- app_assoc. reflexivity.
Qed.

(** C10.  In a call, a keyword whose [arg] is [None] writes no row: the
    rows of the keyword names are those of the other keywords, and its
    value is walked in its place among the keyword values.  The rows of the
    keyword names are exactly those of the keywords whose [arg] is a
    non-empty name. *)
Theorem double_star_keyword (fname : string) (func : node)
        (cargs : list node) (ks1 ks2 : list keyword) (v : node)
        (pk pos : position) (w : writer) :
  visit fname (Call func cargs (ks1 ++ mk_keyword None v pk :: ks2) pos) w =
  (for_each (_visit_keyword fname) (ks1 ++ ks2) ;;
   visit fname func ;;
   for_each (visit fname) cargs ;;
   for_each (generic_visit_keyword (visit fname)) ks1 ;;
   visit fname v ;;
   for_each (generic_visit_keyword (visit fname)) ks2) w
  /\ for_each (_visit_keyword fname) (ks1 ++ mk_keyword None v pk :: ks2) w =
     w ++ map (fun k => mk_row (kw_arg k) (lineno (kw_pos k))
                               (col_offset (kw_pos k) + 1) fname)
              (filter (fun k => truthy (kw_arg k)) (ks1 ++ ks2)).
Proof.
  assert (Hnames : forall ks w',
             for_each (_visit_keyword fname) ks w' =
             w' ++ map (fun k : keyword =>
                          mk_row (kw_arg k) (lineno (kw_pos k))
                                 (col_offset (kw_pos k) + 1) fname)
                       (filter (fun k => truthy (kw_arg k)) ks)).
  { induction ks as [|k ks IH]; intros w'.
    - symmetry. apply app_nil_r.
    - rewrite for_each_cons, IH. cbn [filter]. unfold _visit_keyword.
      destruct (truthy (kw_arg k)); cbn [map].
      + unfold _write. rewrite <- app_assoc. reflexivity.
      + reflexivity. }
  assert (Hskip : forall w',
             for_each (_visit_keyword fname)
                      (ks1 ++ mk_keyword None v pk :: ks2) w' =
             for_each (_visit_keyword fname) (ks1 ++ ks2) w').
  { intros w'. rewrite !for_each_app, for_each_cons. reflexivity. }
  split.
  - cbn [visit]. unfold seq. rewrite Hskip.
    rewrite for_each_app, for_each_cons. reflexivity.
  - rewrite Hskip. apply Hnames.
Qed.

(** C7.  For a node of a class without a [visit_] method the walk writes
    nothing for the node itself: what it adds to the writer is what the
    walks of its children add, one after the other, and the walk is
    defined for every such node. *)
Theorem unrecognised_kind (fname : string) (kind : string)
        (fields : list field) (w : writer) :
  visit fname (Other kind fields) w =
  w ++ flat_map (fun c => visit fname c []) (flat_map field_children fields).
Proof.
  cbn [visit]. revert w.
  induction fields as [|f fields IH]; intros w.
  - symmetry. apply app_nil_r.
  - rewrite for_each_cons, IH. cbn [flat_map].
    rewrite flat_map_app, app_assoc. f_equal.
    destruct f as [n|items|]; cbn [generic_visit_field field_children].
    + cbn [flat_map]. rewrite app_nil_r. apply visit_appends.
    + apply for_each_opt_visit.
    + symmetry. apply app_nil_r.
Qed.

(** ** Positions of the rows *)

(** C8.  When the tree is positioned as the parser positions it (lines
    from 1, column offsets from 0), every row written has a line of at least
    1 and a column of at least 1, and its line and column are the [lineno]
    and the [col_offset] plus 1 of one node of the tree, the one given to
    [_write]. *)
Theorem rows_one_based (fname : string) (n : node) :
  Forall valid_position (positions n) ->
  Forall (fun r =>
            1 <= row_line r /\ 1 <= row_column r /\
            exists p, In p (positions n) /\
                      row_line r = lineno p /\
                      row_column r = col_offset p + 1)
         (visit fname n []).
Proof.
  intros Hvalid.
  set (Q := fun r =>
              1 <= row_line r /\ 1 <= row_column r /\
              exists p, In p (positions n) /\
                        row_line r = lineno p /\
                        row_column r = col_offset p + 1).
  enough (H : forall w, Forall Q w -> Forall Q (visit fname n w))
    by (apply H; constructor).
  apply (R_visit fname fname
           (fun p => In p (positions n) /\ valid_position p)
           (fun a _ => forall w, Forall Q w -> Forall Q (a w))).
  - intros w Hw. exact Hw.
  - intros a a' _ _ Ha Ha' w Hw. apply Ha', Ha, Hw.
  - intros name pos [Hin [Hline Hcol]] w Hw. unfold _write.
    apply Forall_app. split; [exact Hw|].
    constructor; [|constructor].
    unfold Q; cbn [row_line row_column].
    repeat split; try lia. exists pos. auto.
  - rewrite Forall_forall in *. auto.
Qed.

(** The unit [def f(x, y=1): return obj.attr] is positioned as the parser
    positions it, and its rows are one-based. *)
Lemma rows_one_based_witness :
  Forall valid_position (positions unit_f) /\
  Forall (fun r =>
            1 <= row_line r /\ 1 <= row_column r /\
            exists p, In p (positions unit_f) /\
                      row_line r = lineno p /\
                      row_column r = col_offset p + 1)
         (visit "f.py" unit_f []).
Proof.
  assert (H : Forall valid_position (positions unit_f)).
  { repeat (constructor; [unfold valid_position; cbn; lia|]). constructor. }
  split; [exact H|]. apply (rows_one_based "f.py" unit_f H).
Defined.

(** ** Determinism *)

Lemma occurrences_any_file (f1 f2 : string) (n : node) :
  map occurrence (visit f1 n []) = map occurrence (visit f2 n []).
Proof.
  enough (H : forall w w', map occurrence w = map occurrence w' ->
                           map occurrence (visit f1 n w) =
                           map occurrence (visit f2 n w'))
    by (apply H; reflexivity).
  apply (R_visit f1 f2 (fun _ => True)
           (fun a b => forall w w', map occurrence w = map occurrence w' ->
                                    map occurrence (a w) =
                                    map occurrence (b w'))).
  - intros w w' H. exact H.
  - intros a a' b b' Ha Ha' w w' H. apply Ha', Ha, H.
  - intros name pos _ w w' H. unfold _write.
    rewrite !map_app, H. reflexivity.
  - apply Forall_forall. intros; exact I.
Qed.

(** C9.  The occurrences a walk adds are a function of the tree alone:
    under any file name and from any earlier content of the writer, the walk
    of [n] adds [occurrences n]; and a second walk of the same tree adds
    the rows of the first once more. *)
Theorem same_tree_same_occurrences (fname : string) (n : node) (w : writer) :
  map occurrence (visit fname n w) = map occurrence w ++ occurrences n
  /\ visit fname n (visit fname n w) =
     (w ++ visit fname n []) ++ visit fname n [].
Proof.
  split.
  - rewrite visit_appends, map_app. f_equal.
    apply occurrences_any_file.
  - rewrite (visit_appends fname n (visit fname n w)).
    rewrite (visit_appends fname n w). reflexivity.
Qed.

(** * More of the visitor *)

(** ** The rows of each loop *)

Lemma for_each_rows {A : Type} (f : A -> action) (g : A -> list row)
      (l : list A) (w : writer) :
  (forall x w', f x w' = w' ++ g x) ->
  for_each f l w = w ++ flat_map g l.
Proof.
  intros Hf. revert w. induction l as [|x l IH]; intros w; cbn [flat_map].
  - symmetry. apply app_nil_r.
  - rewrite for_each_cons, IH, Hf. symmetry. apply app_assoc.
Qed.

Lemma flat_map_singleton {A B : Type} (f : A -> B) (l : list A) :
  flat_map (fun x => [f x]) l = map f l.
Proof. induction l as [|x l IH]; cbn; congruence. Qed.

Lemma flat_map_guarded {A B : Type} (p : A -> bool) (f : A -> B)
      (l : list A) :
  flat_map (fun x => if p x then [f x] else []) l = map f (filter p l).
Proof.
  induction l as [|x l IH]; cbn; [reflexivity|].
  destruct (p x); cbn; congruence.
Qed.

Lemma walk_nil (fname : string) : walk fname [] = [].
Proof. reflexivity. Qed.

Lemma walk_cons (fname : string) (c : node) (l : list node) :
  walk fname (c :: l) = visit fname c [] ++ walk fname l.
Proof. reflexivity. Qed.

Lemma walk_app (fname : string) (l l' : list node) :
  walk fname (l ++ l') = walk fname l ++ walk fname l'.
Proof. apply flat_map_app. Qed.

Lemma walk_flat_map {A : Type} (fname : string) (f : A -> list node)
      (l : list A) :
  walk fname (flat_map f l) = flat_map (fun x => walk fname (f x)) l.
Proof.
  induction l as [|x l IH]; cbn [flat_map]; [reflexivity|].
  rewrite walk_app, IH. reflexivity.
Qed.

Lemma if_some_visit_rows (fname : string) (o : option node) (w : writer) :
  if_some (visit fname) o w = w ++ walk fname (opt_list o).
Proof.
  destruct o as [c|]; cbn.
  - rewrite app_nil_r. apply visit_appends.
  - symmetry. apply app_nil_r.
Qed.

Lemma visits_rows (fname : string) (l : list node) (w : writer) :
  for_each (visit fname) l w = w ++ walk fname l.
Proof. apply for_each_rows. intros. apply visit_appends. Qed.

Lemma opt_visits_rows (fname : string) (l : list (option node))
      (w : writer) :
  for_each (if_some (visit fname)) l w = w ++ walk fname (somes l).
Proof.
  unfold somes. rewrite walk_flat_map. apply for_each_rows.
  intros. apply if_some_visit_rows.
Qed.

Lemma write_parts_rows (fname s : string) (pos : position) (w : writer) :
  write_parts fname s pos w = w ++ part_rows fname s pos.
Proof.
  unfold write_parts, part_rows, parts.
  rewrite <- flat_map_guarded. apply for_each_rows.
  intros part w'. destruct (truthy (Some part)); cbn.
  - reflexivity.
  - symmetry. apply app_nil_r.
Qed.

Lemma visit_alias_rows (fname : string) (a : alias) (w : writer) :
  _visit_alias fname a w = w ++ alias_rows fname a.
Proof.
  unfold _visit_alias, alias_rows, seq.
  assert (H : (if truthy (Some (alias_name a))
               then write_parts fname (alias_name a) (alias_pos a)
               else skip) w
              = w ++ part_rows fname (alias_name a) (alias_pos a)).
  { destruct (alias_name a) as [|c s] eqn:E.
    - cbn. symmetry. apply app_nil_r.
    - cbn [truthy]. apply write_parts_rows. }
  rewrite H. destruct (truthy (asname a)).
  - unfold _write. symmetry. apply app_assoc.
  - unfold skip. rewrite app_nil_r. reflexivity.
Qed.

Lemma visit_aliases_rows (fname : string) (names : list alias)
      (w : writer) :
  for_each (_visit_alias fname) names w =
  w ++ flat_map (alias_rows fname) names.
Proof. apply for_each_rows. intros. apply visit_alias_rows. Qed.

Lemma generic_aliases_rows (names : list alias) (w : writer) :
  for_each generic_visit_alias names w = w.
Proof.
  revert w. induction names as [|a names IH]; intros w; [reflexivity|].
  rewrite for_each_cons. apply IH.
Qed.

Lemma visit_keywords_rows (fname : string) (keywords : list keyword)
      (w : writer) :
  for_each (_visit_keyword fname) keywords w =
  w ++ keyword_rows fname keywords.
Proof.
  unfold keyword_rows. rewrite <- flat_map_guarded. apply for_each_rows.
  intros k w'. unfold _visit_keyword. destruct (truthy (kw_arg k)).
  - reflexivity.
  - symmetry. apply app_nil_r.
Qed.

Lemma generic_keywords_rows (fname : string) (keywords : list keyword)
      (w : writer) :
  for_each (generic_visit_keyword (visit fname)) keywords w =
  w ++ walk fname (map kw_value keywords).
Proof.
  rewrite (for_each_rows _ (fun k : keyword => visit fname (kw_value k) [])).
  - f_equal. unfold walk.
    induction keywords as [|k ks IH]; cbn [map flat_map]; congruence.
  - intros k w'. apply visit_appends.
Qed.

Lemma visit_params_rows (fname : string) (l : list arg) (w : writer) :
  for_each (fun x : arg => _visit_arg fname (Some x)) l w =
  w ++ param_rows fname l.
Proof.
  unfold param_rows. rewrite <- flat_map_singleton. apply for_each_rows.
  reflexivity.
Qed.

Lemma visit_param_rows (fname : string) (o : option arg) (w : writer) :
  _visit_arg fname o w = w ++ param_rows fname (opt_list o).
Proof.
  destruct o as [x|]; cbn.
  - reflexivity.
  - symmetry. apply app_nil_r.
Qed.

Lemma generic_arg_rows (fname : string) (x : arg) (w : writer) :
  generic_visit_arg (visit fname) x w =
  w ++ walk fname (opt_list (annotation x)).
Proof. apply if_some_visit_rows. Qed.

Lemma generic_args_rows (fname : string) (l : list arg) (w : writer) :
  for_each (generic_visit_arg (visit fname)) l w =
  w ++ walk fname (flat_map (fun x : arg => opt_list (annotation x)) l).
Proof.
  rewrite walk_flat_map. apply for_each_rows. intros.
  apply generic_arg_rows.
Qed.

Lemma generic_opt_arg_rows (fname : string) (o : option arg) (w : writer) :
  if_some (generic_visit_arg (visit fname)) o w =
  w ++ walk fname
         (flat_map (fun x : arg => opt_list (annotation x)) (opt_list o)).
Proof.
  destruct o as [x|]; cbn [if_some opt_list flat_map].
  - rewrite app_nil_r. apply generic_arg_rows.
  - symmetry. apply app_nil_r.
Qed.

Lemma names_rows (fname : string) (gnames : list string) (pos : position)
      (w : writer) :
  for_each (fun name => _write fname (Some name) pos) gnames w =
  w ++ map (fun name => row_at fname name pos) gnames.
Proof.
  rewrite <- flat_map_singleton. apply for_each_rows. reflexivity.
Qed.

Lemma generic_fields_rows (fname : string) (fields : list field)
      (w : writer) :
  for_each (generic_visit_field (visit fname)) fields w =
  w ++ walk fname (flat_map field_children fields).
Proof.
  rewrite walk_flat_map. apply for_each_rows.
  intros f w'. destruct f as [c|items|]; cbn [generic_visit_field field_children].
  - cbn. rewrite app_nil_r. apply visit_appends.
  - apply opt_visits_rows.
  - symmetry. apply app_nil_r.
Qed.

Lemma visit_arguments_rows (fname : string) (a : arguments) (w : writer) :
  _visit_arguments fname (visit fname) a w = w ++ arguments_rows fname a.
Proof.
  unfold _visit_arguments, arguments_rows, seq.
  repeat first [ rewrite visit_params_rows | rewrite opt_visits_rows
               | rewrite visit_param_rows ].
  repeat rewrite <- app_assoc. reflexivity.
Qed.

Lemma generic_arguments_rows (fname : string) (a : arguments) (w : writer) :
  generic_visit_arguments (visit fname) a w =
  w ++ walk fname (arguments_children a).
Proof.
  unfold generic_visit_arguments, arguments_children, seq.
  repeat first [ rewrite generic_args_rows | rewrite opt_visits_rows
               | rewrite generic_opt_arg_rows ].
  rewrite !walk_app.
  repeat rewrite <- app_assoc. reflexivity.
Qed.

(** ** The rows of a node *)

Ltac rows_of_loops :=
  repeat first
    [ rewrite visits_rows | rewrite opt_visits_rows
    | rewrite if_some_visit_rows | rewrite visit_keywords_rows
    | rewrite generic_keywords_rows | rewrite visit_aliases_rows
    | rewrite generic_aliases_rows | rewrite visit_arguments_rows
    | rewrite generic_arguments_rows | rewrite generic_fields_rows
    | rewrite names_rows | rewrite write_parts_rows ].

(** From any writer, a walk adds what the node writes before its
    children, the walks of its children, and what it writes after. *)
Lemma visit_unfolds (fname : string) (n : node) (w : writer) :
  visit fname n w =
  w ++ rows_before fname n ++ walk fname (children n) ++ rows_after fname n.
Proof.
  destruct n; cbn [visit rows_before rows_after children own_rows];
    unfold seq, generic_visit_ctx, skip.
  all: try match goal with
           | |- context [truthy ?m] => destruct m as [[|c m]|]; cbn [truthy]
           end.
  all: unfold skip; rows_of_loops; unfold _write, row_at.
  all: repeat match goal with
              | |- context [visit ?f ?c ?w'] =>
                  lazymatch w' with
                  | [] => fail
                  | _ => rewrite (visit_appends f c w')
                  end
              end.
  all: cbn [opt_list]; rewrite ?walk_cons, ?walk_app, ?walk_nil;
    cbn [app]; rewrite ?app_nil_r; repeat rewrite <- app_assoc;
    reflexivity.
Qed.

(** X1.  The rows of the walk of a node are what the node writes of its
    own before its children, then the walks of its children in the order of
    the fields that hold them, then, for an attribute access only, its one
    own row.  For a function definition the part before the children
    already holds the walks of the defaults, which come again with the
    children. *)
Theorem node_rows_in_order (fname : string) (n : node) :
  visit fname n [] =
  rows_before fname n ++ walk fname (children n) ++ rows_after fname n.
Proof. apply (visit_unfolds fname n []). Qed.

(** C6.  In the walk of a function definition an absent variadic-keyword
    parameter gives no row, and a present one gives exactly one row, its
    name, written right after the walks of the keyword-only defaults, which
    close the pass over the parameters (positional-only, positional,
    variadic-positional, keyword-only, then the keyword-only defaults); the
    only other trace of the parameter is the walk of its annotation among
    the children.  An absent variadic-positional parameter and absent
    defaults give nothing either: with every slot empty the rows are the
    name and the walks of the body, decorators, return annotation and type
    parameters.  An [async] definition is walked the same way. *)
Theorem variadic_keyword_slot (fname name : string)
        (po ar : list arg) (va : option arg) (ko : list arg)
        (kd de : list (option node)) (body decorator_list : list node)
        (returns : option node) (type_params : list node) (pos : position)
        (w : writer) :
  let A := fun kw : option arg => mk_arguments po ar va ko kd kw de in
  let ann := fun l : list arg =>
               flat_map (fun x : arg => opt_list (annotation x)) l in
  let before :=
    row_at fname name pos ::
    param_rows fname po ++ param_rows fname ar ++
    param_rows fname (opt_list va) ++ walk fname (somes de) ++
    param_rows fname ko ++ walk fname (somes kd) in
  let annotations :=
    walk fname (ann po ++ ann ar ++ ann (opt_list va) ++ ann ko ++
                somes kd) in
  let rest :=
    walk fname (somes de ++ body ++ decorator_list ++ opt_list returns ++
                type_params) in
  visit fname
        (FunctionDef name (A None) body decorator_list returns type_params
                     pos) w
  = w ++ before ++ annotations ++ rest
  /\ (forall k : arg,
        visit fname
              (FunctionDef name (A (Some k)) body decorator_list returns
                           type_params pos) w
        = w ++ before ++ [row_at fname (arg_arg k) (arg_pos k)] ++
          annotations ++ walk fname (opt_list (annotation k)) ++ rest)
  /\ visit fname
           (FunctionDef name (mk_arguments [] [] None [] [] None []) body
                        decorator_list returns type_params pos) w
     = w ++ row_at fname name pos ::
       walk fname (body ++ decorator_list ++ opt_list returns ++ type_params)
  /\ (forall a : arguments,
        visit fname
              (AsyncFunctionDef name a body decorator_list returns
                                type_params pos) w
        = visit fname
                (FunctionDef name a body decorator_list returns type_params
                             pos) w).
Proof.
  intros A ann before annotations rest.
  repeat split; intros; rewrite ?(visit_unfolds fname _ w);
    subst A ann before annotations rest;
    cbn [rows_before rows_after children];
    unfold arguments_rows, arguments_children;
    cbn [posonlyargs args vararg kwonlyargs kw_defaults kwarg defaults
         opt_list flat_map param_rows map somes];
    rewrite ?walk_app, ?walk_nil, ?app_nil_r; cbn [app];
    repeat rewrite <- app_assoc; cbn [app]; reflexivity.
Qed.

(** ** Induction along [children] *)

Lemma all_In {A : Type} (P : A -> Prop) (l : list A) :
  list_all A P l -> forall x, In x l -> P x.
Proof. intros H. apply Forall_forall, all_Forall, H. Qed.

Lemma opt_all_In (P : node -> Prop) (o : option node) :
  option_all node P o -> forall c, In c (opt_list o) -> P c.
Proof.
  intros [c' Hc'|] c Hc; cbn in Hc.
  - destruct Hc as [<-|[]]. exact Hc'.
  - destruct Hc.
Qed.

Lemma nested_all_In {A : Type} (Q : A -> Type) (f : A -> list node)
      (P : node -> Prop) (l : list A) :
  list_all A Q l ->
  (forall x, Q x -> forall c, In c (f x) -> P c) ->
  forall c, In c (flat_map f l) -> P c.
Proof.
  intros H step. induction H as [|x Hx l _ IH]; intros c Hc; cbn in Hc.
  - destruct Hc.
  - apply in_app_iff in Hc. destruct Hc as [Hc|Hc].
    + apply (step x Hx c Hc).
    + apply IH, Hc.
Qed.

Lemma somes_all_In (P : node -> Prop) (l : list (option node)) :
  list_all (option node) (option_all node P) l ->
  forall c, In c (somes l) -> P c.
Proof.
  intros H. apply (nested_all_In _ _ P l H). apply opt_all_In.
Qed.

Lemma keywords_all_In (P : node -> Prop) (l : list keyword) :
  list_all keyword (keyword_of_all node P) l ->
  forall c, In c (map kw_value l) -> P c.
Proof.
  intros H c Hc. rewrite <- flat_map_singleton in Hc. revert c Hc.
  apply (nested_all_In _ _ P l H).
  intros k [a v Hv p] c [<-|[]]. exact Hv.
Qed.

Lemma arg_all_In (P : node -> Prop) (x : arg) :
  arg_of_all node P x ->
  forall c, In c (opt_list (annotation x)) -> P c.
Proof. intros [s o Ho p]. apply (opt_all_In P o Ho). Qed.

Lemma args_all_In (P : node -> Prop) (l : list arg) :
  list_all arg (arg_of_all node P) l ->
  forall c, In c (flat_map (fun x : arg => opt_list (annotation x)) l) ->
            P c.
Proof.
  intros H. apply (nested_all_In _ _ P l H). apply arg_all_In.
Qed.

Lemma opt_arg_all_In (P : node -> Prop) (o : option arg) :
  option_all arg (arg_of_all node P) o ->
  forall c, In c (flat_map (fun x : arg => opt_list (annotation x))
                           (opt_list o)) -> P c.
Proof.
  intros [x Hx|] c Hc; cbn in Hc; [|destruct Hc].
  rewrite app_nil_r in Hc. apply (arg_all_In P x Hx c Hc).
Qed.

Lemma arguments_all_In (P : node -> Prop) (a : arguments) :
  arguments_of_all node P a ->
  forall c, In c (arguments_children a) -> P c.
Proof.
  intros [po Hpo ar Har va Hva ko Hko kd Hkd kw Hkw de Hde] c.
  unfold arguments_children.
  cbn [posonlyargs args vararg kwonlyargs kw_defaults kwarg defaults].
  rewrite !in_app_iff.
  intros [H|[H|[H|[H|[H|[H|H]]]]]].
  - apply (args_all_In P po Hpo c H).
  - apply (args_all_In P ar Har c H).
  - apply (opt_arg_all_In P va Hva c H).
  - apply (args_all_In P ko Hko c H).
  - apply (somes_all_In P kd Hkd c H).
  - apply (opt_arg_all_In P kw Hkw c H).
  - apply (somes_all_In P de Hde c H).
Qed.

Lemma fields_all_In (P : node -> Prop) (l : list field) :
  list_all field (field_of_all node P) l ->
  forall c, In c (flat_map field_children l) -> P c.
Proof.
  intros H. apply (nested_all_In _ _ P l H).
  intros f [c' Hc'|items Hitems|] c Hc; cbn in Hc.
  - destruct Hc as [<-|[]]. exact Hc'.
  - apply (somes_all_In P items Hitems c Hc).
  - destruct Hc.
Qed.

(** A property that holds of a node whenever it holds of its children holds
    of every node. *)
Lemma children_ind (P : node -> Prop) :
  (forall n, (forall c, In c (children n) -> P c) -> P n) ->
  forall n, P n.
Proof.
  intros step. induction n; apply step; cbn [children]; intros c Hc;
    repeat (rewrite in_app_iff in Hc || cbn [In] in Hc).
  all: repeat match goal with
              | H : _ \/ _ |- _ => destruct H
              | H : False |- _ => destruct H
              end.
  all: subst; try assumption.
  all: match goal with
       | H : list_all node _ ?l, Hc : In _ ?l |- _ =>
           exact (all_In _ _ H _ Hc)
       | H : option_all node _ ?o, Hc : In _ (opt_list ?o) |- _ =>
           exact (opt_all_In _ _ H _ Hc)
       | H : list_all keyword _ ?l, Hc : In _ (map kw_value ?l) |- _ =>
           exact (keywords_all_In _ _ H _ Hc)
       | H : arguments_of_all node _ ?a,
         Hc : In _ (arguments_children ?a) |- _ =>
           exact (arguments_all_In _ _ H _ Hc)
       | H : list_all field _ ?l,
         Hc : In _ (flat_map field_children ?l) |- _ =>
           exact (fields_all_In _ _ H _ Hc)
       end.
Qed.

(** ** Every node is reached, and nothing else is written *)

Lemma child_rows_block (fname : string) (n c : node) :
  In c (children n) ->
  exists pre post,
    visit fname n [] = pre ++ visit fname c [] ++ post.
Proof.
  intros Hc. apply in_split in Hc. destruct Hc as (l1 & l2 & Hl).
  rewrite (visit_unfolds fname n []), Hl, walk_app, walk_cons. cbn [app].
  exists (rows_before fname n ++ walk fname l1),
         (walk fname l2 ++ rows_after fname n).
  repeat rewrite <- app_assoc. reflexivity.
Qed.

(** X2.  The walk reaches every node of the tree: the rows of the walk
    of any node at or below [n] stand, together and in their order, inside
    the rows of the walk of [n]. *)
Theorem subtree_rows_block (fname : string) (n m : node) :
  reaches n m ->
  exists pre post,
    visit fname n [] = pre ++ visit fname m [] ++ post.
Proof.
  induction 1 as [n|n c m Hc _ IH].
  - exists [], []. rewrite app_nil_r. reflexivity.
  - destruct (child_rows_block fname n c Hc) as (pre & post & Hn).
    destruct IH as (pre' & post' & Hm).
    exists (pre ++ pre'), (post' ++ post).
    rewrite Hn, Hm. repeat rewrite <- app_assoc. reflexivity.
Qed.

Lemma unit_f_reaches_obj :
  reaches unit_f (Name "obj" Load (at_ 2 11)).
Proof.
  set (obj := Name "obj" Load (at_ 2 11)).
  set (attr := Attribute obj "attr" Load (at_ 2 11)).
  unfold unit_f, Module.
  eapply reaches_below; [cbn; left; reflexivity|].
  apply (reaches_below _ (Return (Some attr))); [cbn; auto|].
  apply (reaches_below _ attr); [cbn; auto|].
  apply (reaches_below _ obj); [cbn; auto|].
  apply reaches_here.
Defined.

(** The rows of [obj] stand inside the rows of the unit
    [def f(x, y=1): return obj.attr]. *)
Lemma subtree_rows_block_witness :
  reaches unit_f (Name "obj" Load (at_ 2 11)) /\
  exists pre post,
    visit "f.py" unit_f [] =
    pre ++ visit "f.py" (Name "obj" Load (at_ 2 11)) [] ++ post.
Proof.
  split; [exact unit_f_reaches_obj|].
  apply (subtree_rows_block "f.py" _ _ unit_f_reaches_obj).
Defined.

(** X3.  No name reference is missed: a [Name] node anywhere at or below
    [n] has its row, with its identifier, line and column, among the rows
    of the walk of [n]. *)
Theorem name_reference_written (fname : string) (n : node) (id : string)
        (ctx : expr_context) (pos : position) :
  reaches n (Name id ctx pos) ->
  In (row_at fname id pos) (visit fname n []).
Proof.
  intros H. remember (Name id ctx pos) as m eqn:Em.
  induction H as [n|n c m Hc _ IH].
  - subst n. left. reflexivity.
  - destruct (child_rows_block fname n c Hc) as (pre & post & Hn).
    rewrite Hn, !in_app_iff. right; left. apply IH, Em.
Qed.

(** The rows of the unit [def f(x, y=1): return obj.attr] hold the row
    of its name reference [obj]. *)
Lemma name_reference_written_witness :
  reaches unit_f (Name "obj" Load (at_ 2 11)) /\
  In (row_at "f.py" "obj" (at_ 2 11)) (visit "f.py" unit_f []).
Proof.
  split; [exact unit_f_reaches_obj|].
  apply (name_reference_written "f.py" _ _ _ _ unit_f_reaches_obj).
Defined.

Lemma reaches_child (n c m : node) :
  In c (children n) -> reaches c m -> reaches n m.
Proof. apply reaches_below. Qed.

Lemma rows_before_owned (fname : string) (n : node) (r : row) :
  In r (rows_before fname n) ->
  In r (own_rows fname n) \/
  exists c, In c (children n) /\ In r (visit fname c []).
Proof.
  assert (Hargs : forall a : arguments,
             In r (arguments_rows fname a) ->
             In r (param_rows fname (params a)) \/
             exists c, In c (arguments_children a) /\
                       In r (visit fname c [])).
  { intros a. unfold arguments_rows, params, param_rows, arguments_children.
    rewrite !map_app, !in_app_iff. unfold walk. rewrite !in_flat_map.
    intros [H|[H|[H|[H|[H|[H|H]]]]]]; try tauto.
    - right. destruct H as (c & Hc & Hr). exists c.
      rewrite !in_app_iff. tauto.
    - right. destruct H as (c & Hc & Hr). exists c.
      rewrite !in_app_iff. tauto. }
  destruct n; cbn [rows_before own_rows children]; try tauto.
  1: intros [].
  all: intros [H|H]; [left; left; exact H|].
  all: destruct (Hargs _ H) as [H'|(c & Hc & Hr)];
    [left; right; exact H'|right; exists c; rewrite in_app_iff; tauto].
Qed.

(** X4.  Nothing is written that no node owns: every row of the walk of
    [n] is one of the own rows of a node at or below [n]. *)
Theorem rows_have_an_owner (fname : string) (n : node) (r : row) :
  In r (visit fname n []) ->
  exists m, reaches n m /\ In r (own_rows fname m).
Proof.
  revert r. induction n as [n IH] using children_ind. intros r.
  rewrite (visit_unfolds fname n []). cbn [app]. rewrite !in_app_iff.
  assert (Hbelow : forall c, In c (children n) -> In r (visit fname c []) ->
                             exists m, reaches n m /\ In r (own_rows fname m)).
  { intros c Hc Hr. destruct (IH c Hc r Hr) as (m & Hm & Hown).
    exists m. split; [exact (reaches_child n c m Hc Hm)|exact Hown]. }
  intros [H|[H|H]].
  - destruct (rows_before_owned fname n r H) as [Hown|(c & Hc & Hr)].
    + exists n. split; [apply reaches_here|exact Hown].
    + exact (Hbelow c Hc Hr).
  - unfold walk in H. apply in_flat_map in H.
    destruct H as (c & Hc & Hr). exact (Hbelow c Hc Hr).
  - exists n. split; [apply reaches_here|].
    destruct n; cbn [rows_after] in H; try contradiction.
    exact H.
Qed.

(** The row of [attr] in the unit [def f(x, y=1): return obj.attr] is an
    own row of a node of the unit. *)
Lemma rows_have_an_owner_witness :
  In (row_at "f.py" "attr" (at_ 2 11)) (visit "f.py" unit_f []) /\
  exists m, reaches unit_f m /\
            In (row_at "f.py" "attr" (at_ 2 11)) (own_rows "f.py" m).
Proof.
  assert (H : In (row_at "f.py" "attr" (at_ 2 11))
                 (visit "f.py" unit_f [])).
  { cbn. auto 10. }
  split; [exact H|].
  apply (rows_have_an_owner "f.py" unit_f _ H).
Defined.

Lemma visit_keeps_file_column (fname : string) (n : node) (w : writer)
      (P : string -> Prop) :
  P fname ->
  Forall (fun r => P (row_file r)) w ->
  Forall (fun r => P (row_file r)) (visit fname n w).
Proof.
  intros HP. revert w.
  apply (R_visit fname fname (fun _ => True)
           (fun a _ => forall w,
                Forall (fun r => P (row_file r)) w ->
                Forall (fun r => P (row_file r)) (a w))).
  - intros w Hw. exact Hw.
  - intros a a' _ _ Ha Ha' w Hw. apply Ha', Ha, Hw.
  - intros name pos _ w Hw. unfold _write.
    apply Forall_app. split; [exact Hw|]. repeat constructor. exact HP.
  - apply Forall_forall. intros; exact I.
Qed.

(** X5.  Every row a visitor writes carries, in its file column, the file
    name the visitor was made with. *)
Theorem rows_file_column (fname : string) (n : node) :
  Forall (fun r => row_file r = fname) (visit fname n []).
Proof.
  apply (visit_keeps_file_column fname n [] (fun f => f = fname)).
  - reflexivity.
  - constructor.
Qed.

(** ** Dotted names *)

Lemma append_nil_r (s : string) : (s ++ "")%string = s.
Proof. induction s as [|c s IH]; cbn; congruence. Qed.

Lemma append_assoc (s t u : string) :
  ((s ++ t) ++ u)%string = (s ++ t ++ u)%string.
Proof. induction s as [|c s IH]; cbn; congruence. Qed.

Lemma split_from_not_nil (sep : ascii) (cur s : string) :
  split_from sep cur s <> [].
Proof.
  revert cur. induction s as [|c s IH]; intros cur; cbn.
  - discriminate.
  - destruct (Ascii.eqb c sep); [discriminate|apply IH].
Qed.

Lemma join_cons (sep x : string) (l : list string) :
  l <> [] -> join sep (x :: l) = (x ++ sep ++ join sep l)%string.
Proof. destruct l; [congruence|reflexivity]. Qed.

Lemma join_split_from (sep : ascii) (cur s : string) :
  join (String sep "") (split_from sep cur s) = (cur ++ s)%string.
Proof.
  revert cur. induction s as [|c s IH]; intros cur; cbn [split_from].
  - cbn. symmetry. apply append_nil_r.
  - destruct (Ascii.eqb_spec c sep) as [->|Hc].
    + rewrite join_cons by apply split_from_not_nil.
      rewrite IH. reflexivity.
    + rewrite IH, append_assoc. reflexivity.
Qed.

Lemma contains_append (c : ascii) (s t : string) :
  contains c (s ++ t) = (contains c s || contains c t)%bool.
Proof.
  induction s as [|c' s IH]; cbn; [reflexivity|].
  rewrite IH. apply Bool.orb_assoc.
Qed.

Lemma split_from_no_sep (sep : ascii) (cur s : string) :
  contains sep cur = false ->
  Forall (fun part => contains sep part = false) (split_from sep cur s).
Proof.
  revert cur. induction s as [|c s IH]; intros cur Hcur; cbn [split_from].
  - constructor; [exact Hcur|constructor].
  - destruct (Ascii.eqb c sep) eqn:Hc.
    + constructor; [exact Hcur|]. apply IH. reflexivity.
    + apply IH. rewrite contains_append, Hcur. cbn. rewrite Hc. reflexivity.
Qed.

Lemma truthy_nonempty (s : string) : truthy (Some s) = true -> s <> "".
Proof. destruct s; [discriminate|discriminate]. Qed.

Lemma part_rows_names (fname s : string) (pos : position) (r : row) :
  In r (part_rows fname s pos) ->
  exists part, r = row_at fname part pos /\ part <> "" /\
               contains dot part = false.
Proof.
  unfold part_rows, parts. intros H. apply in_map_iff in H.
  destruct H as (part & <- & H). apply filter_In in H.
  destruct H as [Hin Hne]. exists part. repeat split.
  - apply truthy_nonempty, Hne.
  - pose proof (split_from_no_sep dot "" s eq_refl) as Hall.
    rewrite Forall_forall in Hall. apply Hall, Hin.
Qed.

Lemma filter_nonempty (l : list string) :
  Forall (fun part => part <> "") l ->
  filter (fun part => truthy (Some part)) l = l.
Proof.
  induction 1 as [|part l Hpart _ IH]; [reflexivity|].
  destruct part; [congruence|]. simpl. f_equal. exact IH.
Qed.

(** X6.  The rows written for a dotted name split it at its dots: each
    is at the position given, its name is not empty and holds no dot, and
    this whatever the name (empty parts, as in [a..b], give no row). *)
Theorem dotted_name_rows (fname s : string) (pos : position) (w : writer) :
  exists rows,
    write_parts fname s pos w = w ++ rows /\
    Forall (fun r => exists part,
                r = row_at fname part pos /\ part <> "" /\
                contains dot part = false)
           rows.
Proof.
  exists (part_rows fname s pos). split.
  - apply write_parts_rows.
  - apply Forall_forall. apply part_rows_names.
Qed.

(** X7.  For a dotted name without an empty part, the names written,
    joined with dots, are the dotted name again. *)
Theorem dotted_name_round_trip (fname s : string) (pos : position) :
  Forall (fun part => part <> "") (split dot s) ->
  join "." (map name_text (write_parts fname s pos [])) = s.
Proof.
  intros Hne. rewrite write_parts_rows. cbn [app].
  unfold part_rows, parts.
  rewrite (filter_nonempty _ Hne), map_map. cbn [name_text row_at row_name].
  rewrite map_id. apply (join_split_from dot "" s).
Qed.

Lemma dotted_name_round_trip_witness :
  Forall (fun part => part <> "") (split dot "pkg.sub.mod") /\
  join "." (map name_text (write_parts "m.py" "pkg.sub.mod" (at_ 1 7) []))
  = "pkg.sub.mod".
Proof.
  assert (H : Forall (fun part => part <> "") (split dot "pkg.sub.mod")).
  { cbn. repeat (constructor; [discriminate|]). constructor. }
  split; [exact H|].
  apply (dotted_name_round_trip "m.py" "pkg.sub.mod" (at_ 1 7) H).
Defined.

(** ** Guarded and unguarded names *)

Lemma alias_rows_names (fname : string) (a : alias) (r : row) :
  In r (alias_rows fname a) ->
  exists s, row_name r = Some s /\ s <> "".
Proof.
  unfold alias_rows. rewrite in_app_iff. intros [H|H].
  - destruct (part_rows_names fname _ _ r H) as (part & -> & Hne & _).
    exists part. split; [reflexivity|exact Hne].
  - destruct (asname a) as [[|c s]|]; cbn in H; try contradiction.
    destruct H as [<-|[]]. exists (String c s). split; [reflexivity|].
    discriminate.
Qed.

(** X8.  Whatever an import statement holds (a name with empty parts, an
    empty [as] name, an empty or absent module), every row written for it
    has a name that is not empty. *)
Theorem import_names_not_empty (fname : string) :
  (forall names pos,
      Forall (fun r => exists s, row_name r = Some s /\ s <> "")
             (visit fname (Import names pos) []))
  /\ (forall module names level pos,
         Forall (fun r => exists s, row_name r = Some s /\ s <> "")
                (visit fname (ImportFrom module names level pos) [])).
Proof.
  assert (Haliases : forall names r,
             In r (flat_map (alias_rows fname) names) ->
             exists s, row_name r = Some s /\ s <> "").
  { intros names r H. apply in_flat_map in H. destruct H as (a & _ & H).
    apply (alias_rows_names fname a r H). }
  split; intros; apply Forall_forall; intros r;
    rewrite (visit_unfolds fname _ []);
    cbn [rows_before rows_after own_rows children walk flat_map app];
    rewrite !app_nil_r.
  - apply Haliases.
  - rewrite in_app_iff. intros [H|H]; [|apply (Haliases _ _ H)].
    destruct module as [m|]; [|contradiction].
    destruct (part_rows_names fname _ _ r H) as (part & -> & Hne & _).
    exists part. split; [reflexivity|exact Hne].
Qed.

(** X9.  The rows of a function definition count the rows of every
    default expression twice: one row for the name, one for each parameter,
    two for each row of the walk of a default (positional or keyword-only),
    one for each row of the walks of the annotations, the body, the
    decorators, the return annotation and the type parameters. *)
Theorem function_rows_count (fname name : string) (a : arguments)
        (body decorator_list : list node) (returns : option node)
        (type_params : list node) (pos : position) :
  List.length (visit fname
            (FunctionDef name a body decorator_list returns type_params pos)
            []) =
  (1 + List.length (params a)
   + 2 * List.length (walk fname (somes (defaults a) ++ somes (kw_defaults a)))
   + List.length (walk fname
               (flat_map (fun x : arg => opt_list (annotation x)) (params a)
                ++ body ++ decorator_list ++ opt_list returns
                ++ type_params)))%nat.
Proof.
  rewrite (visit_unfolds fname _ []).
  cbn [rows_before rows_after children app].
  unfold arguments_rows, arguments_children, params, param_rows.
  rewrite !flat_map_app, !walk_app. cbn [List.length].
  repeat rewrite ?List.length_app, ?List.length_map. cbn [List.length]. lia.
Qed.

(** ** The driver *)

Lemma process_all_cons (e : entry) (es : list entry) (w : writer)
      (err : list message) :
  fails e = false ->
  process_all (e :: es) (w, err) =
  process_all es (w ++ file_rows e, err ++ file_messages e).
Proof.
  unfold fails, file_rows, file_messages. cbn [process_all].
  destruct (entry_is_file e); cbn [andb].
  - destruct (entry_parsed e) as [root| | |root written]; intros H;
      try discriminate; cbn [process_file fst snd].
    + rewrite (visit_appends (entry_path e) root w). reflexivity.
    + rewrite app_nil_r, <- app_assoc. reflexivity.
  - intros _. rewrite !app_nil_r. reflexivity.
Qed.

Lemma process_all_finishes (es : list entry) (w : writer)
      (err : list message) :
  Forall (fun e => fails e = false) es ->
  process_all es (w, err) =
  ((w ++ flat_map file_rows es, err ++ flat_map file_messages es), true).
Proof.
  intros H. revert w err.
  induction H as [|e es He _ IH]; intros w err.
  - cbn. rewrite !app_nil_r. reflexivity.
  - rewrite (process_all_cons e es w err He), IH. cbn [flat_map].
    rewrite !app_assoc. reflexivity.
Qed.

Lemma process_all_stops (pre post : list entry) (e : entry) (w : writer)
      (err : list message) :
  Forall (fun e => fails e = false) pre ->
  fails e = true ->
  process_all (pre ++ e :: post) (w, err) =
  (((w ++ flat_map file_rows pre) ++ partial_rows e,
    err ++ flat_map file_messages pre), false).
Proof.
  intros H He. revert w err.
  induction H as [|e' pre He' _ IH]; intros w err.
  - cbn [app process_all flat_map]. rewrite !app_nil_r.
    unfold fails in He. unfold partial_rows.
    destruct (entry_is_file e); [|discriminate].
    destruct (entry_parsed e) as [root| | |root written];
      try discriminate; cbn [process_file fst snd].
    + rewrite app_nil_r. reflexivity.
    + reflexivity.
  - cbn [app]. rewrite (process_all_cons e' _ w err He'), IH.
    cbn [flat_map]. rewrite !app_assoc. reflexivity.
Qed.

Lemma process_all_any_messages (es : list entry) (w : writer)
      (err err' : list message) :
  fst (fst (process_all es (w, err))) = fst (fst (process_all es (w, err')))
  /\ snd (process_all es (w, err)) = snd (process_all es (w, err')).
Proof.
  revert w err err'. induction es as [|e es IH]; intros w err err'.
  - split; reflexivity.
  - cbn [process_all]. destruct (entry_is_file e); [|apply IH].
    destruct (entry_parsed e) as [root| | |root written];
      cbn [process_file fst snd].
    + apply IH.
    + apply IH.
    + split; reflexivity.
    + split; reflexivity.
Qed.

Lemma process_all_passes_over (pre post : list entry) (e : entry)
      (w : writer) (err : list message) :
  passed_over e = true ->
  fst (fst (process_all (pre ++ e :: post) (w, err))) =
  fst (fst (process_all (pre ++ post) (w, err)))
  /\ snd (process_all (pre ++ e :: post) (w, err)) =
     snd (process_all (pre ++ post) (w, err)).
Proof.
  intros He. revert w err.
  induction pre as [|e' pre IH]; intros w err; cbn [app].
  - cbn [process_all]. unfold passed_over in He.
    destruct (entry_is_file e); [|split; reflexivity].
    destruct (entry_parsed e); try discriminate.
    cbn [process_file fst snd]. apply process_all_any_messages.
  - cbn [process_all]. destruct (entry_is_file e'); [|apply IH].
    destruct (process_file (entry_path e') (entry_parsed e') (w, err))
      as [[w' err'] [|]]; [apply IH|split; reflexivity].
Qed.

Lemma Forall_firstn {A : Type} (P : A -> Prop) (n : nat) (l : list A) :
  Forall P l -> Forall P (firstn n l).
Proof.
  intros H. revert n. induction H as [|x l Hx _ IH]; intros [|n]; cbn;
    constructor; auto.
Qed.

Lemma process_all_file_column (P : string -> Prop) (es : list entry)
      (w : writer) (err : list message) :
  (forall e, In e es -> entry_is_file e = true -> P (entry_path e)) ->
  Forall (fun r => P (row_file r)) w ->
  Forall (fun r => P (row_file r)) (fst (fst (process_all es (w, err)))).
Proof.
  revert w err. induction es as [|e es IH]; intros w err HP Hw.
  - exact Hw.
  - assert (HP' : forall e', In e' es -> entry_is_file e' = true ->
                             P (entry_path e'))
      by (intros e' He'; apply HP; right; exact He').
    cbn [process_all]. destruct (entry_is_file e) eqn:Hfile;
      [|apply IH; assumption].
    assert (Hpath : P (entry_path e))
      by (apply HP; [left; reflexivity|exact Hfile]).
    destruct (entry_parsed e) as [root| | |root written];
      cbn [process_file fst snd].
    + apply IH; [exact HP'|].
      apply visit_keeps_file_column; [exact Hpath|exact Hw].
    + apply IH; assumption.
    + exact Hw.
    + apply Forall_app. split; [exact Hw|]. apply Forall_firstn.
      apply visit_keeps_file_column; [exact Hpath|constructor].
Qed.

(** X10.  With one or two arguments, when the output named (if one is)
    can be opened and no regular file found raises anything but a syntax
    error, in its reading, parsing or walk, [main] writes the header, then
    for each path found, in the order found, the rows of the walk of its
    tree, with nothing for a path that is not a regular file or whose file
    has a syntax error; the script prints [Processed] for every regular
    file, after [Syntax error] for those that have one, and returns. *)
Theorem main_all_files (rglob : string -> list entry)
        (opens : string -> bool) (prog root : string)
        (out : option string) :
  output_opens opens out = true ->
  Forall (fun e => fails e = false) (rglob root) ->
  main rglob opens prog (root :: opt_list out) =
  mk_outcome true (flat_map file_rows (rglob root)) out
             (flat_map file_messages (rglob root)) Returned.
Proof.
  intros Hout H.
  assert (Hrun := process_all_finishes (rglob root) [] [] H).
  cbn [app] in Hrun.
  unfold streams, writer in Hrun.
  destruct out as [o|]; unfold main; cbn [opt_list output_opens] in *;
    cbv zeta; rewrite ?Hout, Hrun; reflexivity.
Qed.

(** A listing with a file that has a syntax error and a directory: the run
    returns with the rows of the two files that parse. *)
Lemma main_all_files_witness :
  output_opens (fun _ => true) (Some "out.csv") = true /\
  Forall (fun e => fails e = false) found /\
  main (fun _ => found) (fun _ => true) "pycount.py" ["pkg"; "out.csv"] =
  mk_outcome true (flat_map file_rows found) (Some "out.csv")
             (flat_map file_messages found) Returned.
Proof.
  assert (H : Forall (fun e => fails e = false) found)
    by (repeat constructor).
  split; [reflexivity|]. split; [exact H|].
  apply (main_all_files (fun _ => found) (fun _ => true) "pycount.py" "pkg"
           (Some "out.csv") eq_refl H).
Defined.

(** X11.  A path that is not a regular file, or a file with a syntax
    error, changes nothing in what [main] writes to the csv output or in how
    the run ends: the run is as if the path had not been found. *)
Theorem main_passes_over (pre post : list entry) (e : entry)
        (opens : string -> bool) (prog : string) (rest : list string) :
  passed_over e = true ->
  rows_written (main (fun _ => pre ++ e :: post) opens prog rest) =
  rows_written (main (fun _ => pre ++ post) opens prog rest)
  /\ header_written (main (fun _ => pre ++ e :: post) opens prog rest) =
     header_written (main (fun _ => pre ++ post) opens prog rest)
  /\ ended (main (fun _ => pre ++ e :: post) opens prog rest) =
     ended (main (fun _ => pre ++ post) opens prog rest).
Proof.
  intros He.
  destruct (process_all_passes_over pre post e [] [] He) as [Hrows Hend].
  unfold streams, writer in Hrows, Hend.
  unfold main; cbv zeta.
  destruct rest as [|root [|out [|extra rest]]]; cbn [rows_written];
    try (repeat split; reflexivity).
  2: destruct (opens out); [|repeat split; reflexivity].
  all: destruct (process_all (pre ++ e :: post) ([], []))
         as [[w1 err1] fin1];
    destruct (process_all (pre ++ post) ([], [])) as [[w2 err2] fin2];
    cbn [fst snd] in Hrows, Hend; subst;
    repeat split; reflexivity.
Qed.

Lemma main_passes_over_witness :
  passed_over (mk_entry "pkg/b.py" true SyntaxErr) = true /\
  rows_written
    (main (fun _ => [mk_entry "pkg/a.py" true (Tree unit_import)] ++
                    mk_entry "pkg/b.py" true SyntaxErr ::
                    [mk_entry "pkg/d.py" true (Tree unit_f)])
          (fun _ => true) "pycount.py" ["pkg"]) =
  rows_written
    (main (fun _ => [mk_entry "pkg/a.py" true (Tree unit_import)] ++
                    [mk_entry "pkg/d.py" true (Tree unit_f)])
          (fun _ => true) "pycount.py" ["pkg"]).
Proof.
  split; [reflexivity|].
  apply (main_passes_over
           [mk_entry "pkg/a.py" true (Tree unit_import)]
           [mk_entry "pkg/d.py" true (Tree unit_f)]
           (mk_entry "pkg/b.py" true SyntaxErr)
           (fun _ => true) "pycount.py" ["pkg"] eq_refl).
Defined.

(** X12.  When the output named (if one is) can be opened, a regular file
    that raises anything but a syntax error ends the run there: the header
    and the rows of the paths before it are written, then the rows its own
    walk had written when the exception came (none when it came from
    opening, reading or parsing the file); its [Processed] line is not
    printed, and no path after it is looked at. *)
Theorem main_stops_at_failure (rglob : string -> list entry)
        (opens : string -> bool) (prog root : string) (out : option string)
        (pre post : list entry) (e : entry) :
  output_opens opens out = true ->
  rglob root = pre ++ e :: post ->
  Forall (fun e => fails e = false) pre ->
  fails e = true ->
  main rglob opens prog (root :: opt_list out) =
  mk_outcome true (flat_map file_rows pre ++ partial_rows e) out
             (flat_map file_messages pre) Raised.
Proof.
  intros Hout Hfound Hpre He.
  assert (Hrun := process_all_stops pre post e [] [] Hpre He).
  cbn [app] in Hrun. unfold streams, writer in Hrun.
  destruct out as [o|]; unfold main; cbn [opt_list output_opens] in *;
    cbv zeta; rewrite ?Hout, Hfound, Hrun; reflexivity.
Qed.

(** A file whose walk stops after two rows: the rows of the file before
    it and its own first two are written, nothing of the file after it. *)
Lemma main_stops_at_failure_witness :
  output_opens (fun _ => true) (Some "out.csv") = true
  /\ found_too_deep =
     [mk_entry "pkg/a.py" true (Tree unit_import)] ++
     mk_entry "pkg/y.py" true (Interrupted unit_f 2) ::
     [mk_entry "pkg/d.py" true (Tree unit_f)]
  /\ Forall (fun e => fails e = false)
            [mk_entry "pkg/a.py" true (Tree unit_import)]
  /\ fails (mk_entry "pkg/y.py" true (Interrupted unit_f 2)) = true
  /\ main (fun _ => found_too_deep) (fun _ => true) "pycount.py"
          ["pkg"; "out.csv"] =
     mk_outcome true
       (flat_map file_rows [mk_entry "pkg/a.py" true (Tree unit_import)] ++
        partial_rows (mk_entry "pkg/y.py" true (Interrupted unit_f 2)))
       (Some "out.csv")
       (flat_map file_messages [mk_entry "pkg/a.py" true (Tree unit_import)])
       Raised.
Proof.
  assert (H : Forall (fun e => fails e = false)
                     [mk_entry "pkg/a.py" true (Tree unit_import)])
    by (repeat constructor).
  split; [reflexivity|]. split; [reflexivity|]. split; [exact H|].
  split; [reflexivity|].
  apply (main_stops_at_failure (fun _ => found_too_deep) (fun _ => true)
           "pycount.py" "pkg" (Some "out.csv")
           [mk_entry "pkg/a.py" true (Tree unit_import)]
           [mk_entry "pkg/d.py" true (Tree unit_f)]
           (mk_entry "pkg/y.py" true (Interrupted unit_f 2))
           eq_refl eq_refl H eq_refl).
Defined.

(** X13.  The file column of every row [main] writes is the path of a
    regular file of the listing. *)
Theorem main_file_column (rglob : string -> list entry)
        (opens : string -> bool) (prog root : string)
        (out : option string) :
  Forall (fun r => exists e, In e (rglob root) /\
                             entry_is_file e = true /\
                             row_file r = entry_path e)
         (rows_written (main rglob opens prog (root :: opt_list out))).
Proof.
  pose proof (process_all_file_column
                (fun f => exists e, In e (rglob root) /\
                                    entry_is_file e = true /\
                                    f = entry_path e)
                (rglob root) [] []) as H.
  cbn beta in H. unfold streams, writer in H.
  assert (Hrows : Forall (fun r => exists e, In e (rglob root) /\
                                             entry_is_file e = true /\
                                             row_file r = entry_path e)
                         (fst (fst (process_all (rglob root) ([], []))))).
  { apply H; [|constructor]. intros e He Hfile. exists e. auto. }
  destruct out as [o|]; unfold main; cbn [opt_list]; cbv zeta.
  1: destruct (opens o); [|constructor].
  all: destruct (process_all (rglob root) ([], [])) as [[w err] fin];
    exact Hrows.
Qed.

(** X14.  With no argument, or with more than two, [main] prints the
    usage line and exits with status 1: no header, no row, and the listing
    is not looked at. *)
Theorem main_usage (rglob : string -> list entry) (opens : string -> bool)
        (prog : string) (rest : list string) :
  List.length rest <> 1%nat -> List.length rest <> 2%nat ->
  main rglob opens prog rest = mk_outcome false [] None [Usage prog] Exit1.
Proof.
  destruct rest as [|root [|out [|extra rest]]]; cbn [List.length];
    intros H1 H2; try congruence; reflexivity.
Qed.

Lemma main_usage_witness :
  List.length (@nil string) <> 1%nat /\
  List.length (@nil string) <> 2%nat /\
  main (fun _ => found) (fun _ => true) "pycount.py" [] =
  mk_outcome false [] None [Usage "pycount.py"] Exit1.
Proof.
  assert (H1 : List.length (@nil string) <> 1%nat) by discriminate.
  assert (H2 : List.length (@nil string) <> 2%nat) by discriminate.
  split; [exact H1|]. split; [exact H2|].
  apply (main_usage (fun _ => found) (fun _ => true) "pycount.py" [] H1 H2).
Defined.
